(** * Fast-BVH, examples/CubeOfSpheres.cpp: the sphere capabilities

    A shallow embedding of the sphere primitive of the demo program, of its
    two capabilities ([SphereBoxConverter], [SphereIntersector]) and of the
    parts of [main] that build the scene and the camera rays.

    The C++ code is generic in its scalar type ([template <typename Float>]).
    The code is embedded twice.  The first embedding reads [Float] as the
    real numbers of the Standard Library: arithmetic is exact, [std::sqrt]
    is [sqrt], and a comparison [a < b] is decided by [Rlt_dec]; it says
    what the formulas compute without rounding.  The module [Binary32]
    evaluates the same code at [float], as [main] runs it, with every
    operation rounded. *)

From Stdlib Require Import Reals Lra Lia ZArith NArith List.
From Stdlib Require SpecFloat.
Import ListNotations.

Open Scope R_scope.

(** ** Vectors *)

(** Modelled from the spec: [Vector3] lives in FastBVH/Vector3.h, which is
    not part of the example file.  The spec describes it as a 3-component
    real-valued vector with arithmetic, dot, cross and normalize. *)
Record Vector3 : Type := mkVector3 { x : R; y : R; z : R }.

Declare Scope vec_scope.
Delimit Scope vec_scope with vec.
Bind Scope vec_scope with Vector3.

Definition vadd (a b : Vector3) : Vector3 :=
  mkVector3 (x a + x b) (y a + y b) (z a + z b).

Definition vsub (a b : Vector3) : Vector3 :=
  mkVector3 (x a - x b) (y a - y b) (z a - z b).

Definition vscale (a : Vector3) (k : R) : Vector3 :=
  mkVector3 (x a * k) (y a * k) (z a * k).

Definition dot (a b : Vector3) : R :=
  x a * x b + y a * y b + z a * z b.

Definition cross (a b : Vector3) : Vector3 :=
  mkVector3 (y a * z b - z a * y b)
            (z a * x b - x a * z b)
            (x a * y b - y a * x b).

Definition length (a : Vector3) : R := sqrt (dot a a).

Definition normalize (a : Vector3) : Vector3 := vscale a (1 / length a).

Infix "+" := vadd : vec_scope.
Infix "-" := vsub : vec_scope.
Infix "*" := vscale : vec_scope.

(** Componentwise order, used for the corners of boxes. *)
Definition vle (a b : Vector3) : Prop :=
  x a <= x b /\ y a <= y b /\ z a <= z b.

(** ** Primitives, boxes, rays, intersections *)

(** [struct Sphere]: centre, radius and squared radius. *)
Record Sphere : Type := mkSphere { center : Vector3; r : R; r2 : R }.

(** The constructor [Sphere(center, radius)]: it is the only way the program
    makes a sphere, and it stores [radius * radius] in [r2]. *)
Definition Sphere_new (c : Vector3) (radius : R) : Sphere :=
  mkSphere c radius (radius * radius).

(** Modelled from the spec: [BBox] lives in FastBVH/BBox.h.  The spec gives
    it the two corners [{min, max}]. *)
Record BBox : Type := mkBBox { bmin : Vector3; bmax : Vector3 }.

(** Modelled from the spec: [Ray] lives in FastBVH/Ray.h.  The spec gives it
    [{origin, direction}]; the code reads the fields [o] and [d]. *)
Record Ray : Type := mkRay { o : Vector3; d : Vector3 }.

(** Modelled from the spec: [Intersection] lives in FastBVH/Intersection.h.
    It is either empty (the default state, which converts to false) or
    populated with the hit distance, a reference to the hit primitive and the
    surface normal.  A reference to a primitive that is never written is
    modelled by the primitive. *)
Inductive Intersection : Type :=
| NoHit : Intersection
| Hit (t : R) (object : Sphere) (normal : Vector3) : Intersection.


(** ** The two capabilities *)

(** [SphereBoxConverter::operator()]. *)
Definition SphereBoxConverter (sphere : Sphere) : BBox :=
  let r := r sphere in
  let box_delta := mkVector3 r r r in
  mkBBox (center sphere - box_delta)%vec (center sphere + box_delta)%vec.

(** The discriminant computed by the intersector, named so that statements
    can speak about it. *)
Definition sd_of (sphere : Sphere) (ray : Ray) : R :=
  dot (center sphere - o ray)%vec (d ray).

Definition ss_of (sphere : Sphere) (ray : Ray) : R :=
  dot (center sphere - o ray)%vec (center sphere - o ray)%vec.

Definition disc_of (sphere : Sphere) (ray : Ray) : R :=
  sd_of sphere ray * sd_of sphere ray - ss_of sphere ray + r2 sphere.

(** [SphereIntersector::operator()]. *)
Definition SphereIntersector (sphere : Sphere) (ray : Ray) : Intersection :=
  let center := center sphere in
  let r2 := r2 sphere in
  let s := (center - o ray)%vec in
  let sd := dot s (d ray) in
  let ss := dot s s in
  let disc := sd * sd - ss + r2 in
  if Rlt_dec disc 0 then NoHit
  else
    let t := sd - sqrt disc in
    let hit_pos := (o ray + d ray * t)%vec in
    let normal := normalize (hit_pos - center)%vec in
    Hit t sphere normal.

(** The point of a ray at parameter [t]. *)
Definition point_at (ray : Ray) (t : R) : Vector3 := (o ray + d ray * t)%vec.

(** Squared distance between two points. *)
Definition dist2 (p q : Vector3) : R := dot (p - q)%vec (p - q)%vec.

(** The invariant the constructor establishes: [r2] is the square of [r]. *)
Definition sphere_ok (sphere : Sphere) : Prop :=
  r2 sphere = r sphere * r sphere.

(** The set of points of a (solid) sphere. *)
Definition in_sphere (sphere : Sphere) (p : Vector3) : Prop :=
  length (p - center sphere)%vec <= r sphere.

(** A box contains a point. *)
Definition box_contains (box : BBox) (p : Vector3) : Prop :=
  vle (bmin box) p /\ vle p (bmax box).

(** A box encloses a sphere. *)
Definition box_encloses (box : BBox) (sphere : Sphere) : Prop :=
  forall p, in_sphere sphere p -> box_contains box p.


(** Inputs used to exercise the intersector. *)
Definition x_axis_ray : Ray := mkRay (mkVector3 0 0 0) (mkVector3 1 0 0).

Definition stretched_ray : Ray := mkRay (mkVector3 0 0 0) (mkVector3 2 0 0).

Definition sphere_ahead : Sphere := Sphere_new (mkVector3 3 0 0) 1.

Definition sphere_behind : Sphere := Sphere_new (mkVector3 (-2) 0 0) 1.

Definition sphere_far : Sphere := Sphere_new (mkVector3 4 0 0) 1.

(** ** Program state *)

(** What the demo keeps in memory: the spheres (the vector [objects]) and
    the rays, both addressed by position, and the hidden state of the C
    library's [rand()], kept as the number of calls made so far. *)
Record Store : Type := mkStore {
  spheres : list Sphere;
  rays : list Ray;
  rand_calls : nat
}.

(** Computations over the store; [None] is a reference to nothing. *)
Definition M (A : Type) : Type := Store -> option (A * Store).

Definition ret {A : Type} (a : A) : M A := fun st => Some (a, st).

Definition bind {A B : Type} (m : M A) (k : A -> M B) : M B :=
  fun st => match m st with
            | Some (a, st') => k a st'
            | None => None
            end.

Notation "v <- m ;; k" := (bind m (fun v => k))
  (at level 61, m at next level, right associativity).
Notation "m ;; k" := (bind m (fun _ => k))
  (at level 61, right associativity).

(** Reading through a [const Sphere&] and a [const Ray&]. *)
Definition load_sphere (p : nat) : M Sphere :=
  fun st => match nth_error (spheres st) p with
            | Some s => Some (s, st)
            | None => None
            end.

Definition load_ray (p : nat) : M Ray :=
  fun st => match nth_error (rays st) p with
            | Some q => Some (q, st)
            | None => None
            end.

(** The capabilities as they are called: with references to their
    arguments. *)
Definition SphereBoxConverter_call (psphere : nat) : M BBox :=
  sphere <- load_sphere psphere ;;
  ret (SphereBoxConverter sphere).

Definition SphereIntersector_call (psphere pray : nat) : M Intersection :=
  sphere <- load_sphere psphere ;;
  ray <- load_ray pray ;;
  ret (SphereIntersector sphere ray).

(** ** Scene construction in [main] *)

(** [rand()]: the C library is a deterministic generator; [rand_seq k] is
    the value of its [k]-th call, and each call advances the position. *)
Definition rand (rand_seq : nat -> Z) : M Z :=
  fun st => Some (rand_seq (rand_calls st),
                  mkStore (spheres st) (rays st) (S (rand_calls st))).

(** [rand01]: [rand() * (1.f / RAND_MAX)]. *)
Definition rand01 (RAND_MAX : Z) (rand_seq : nat -> Z) : M R :=
  n <- rand rand_seq ;;
  ret (IZR n * (1 / IZR RAND_MAX)).

(** [randVector3]; the braces evaluate their three calls left to right. *)
Definition randVector3 (RAND_MAX : Z) (rand_seq : nat -> Z) : M Vector3 :=
  a <- rand01 RAND_MAX rand_seq ;;
  b <- rand01 RAND_MAX rand_seq ;;
  c <- rand01 RAND_MAX rand_seq ;;
  ret (mkVector3 a b c * 2 - mkVector3 1 1 1)%vec.

(** [objects.emplace_back(s)]. *)
Definition emplace_back (s : Sphere) : M unit :=
  fun st => Some (tt, mkStore (spheres st ++ [s]) (rays st) (rand_calls st)).

(** [for (size_t i = 0; i < n; ++i) body], for a body that ignores [i]. *)
Definition for_loop (n : N) (body : M unit) : M unit :=
  N.iter n (fun done => done ;; body) (ret tt).

(** The number of spheres, [N] in [main]. *)
Definition N_spheres : N := 1000000.

(** The loop of [main] that fills [objects]. *)
Definition construct_spheres (RAND_MAX : Z) (rand_seq : nat -> Z) : M unit :=
  for_loop N_spheres
    (c <- randVector3 RAND_MAX rand_seq ;;
     emplace_back (Sphere_new c 0.005)).

(** What the scene promises of each sphere. *)
Definition in_unit_cube (p : Vector3) : Prop :=
  (-1 <= x p <= 1) /\ (-1 <= y p <= 1) /\ (-1 <= z p <= 1).

Definition box_in_cube (box : BBox) : Prop :=
  vle (mkVector3 (-1.005) (-1.005) (-1.005)) (bmin box) /\
  vle (bmax box) (mkVector3 1.005 1.005 1.005).

Definition scene_sphere (s : Sphere) : Prop :=
  r s = 0.005 /\ in_unit_cube (center s) /\ box_in_cube (SphereBoxConverter s).

(** A generator to run the scene with: the values [k mod 32768]. *)
Definition counting_rand (k : nat) : Z := (Z.of_nat k mod 32768)%Z.

(** ** Camera rays in [main] *)

Definition width : Z := 800.
Definition height : Z := 800.

Definition camera_position : Vector3 := mkVector3 1.6 1.3 1.6.
Definition camera_focus : Vector3 := mkVector3 0 0 0.
Definition camera_up : Vector3 := mkVector3 0 1 0.

Definition camera_dir : Vector3 := normalize (camera_focus - camera_position)%vec.
Definition camera_u : Vector3 := normalize (cross camera_dir camera_up).
Definition camera_v : Vector3 := normalize (cross camera_u camera_dir).

(** [size_t] arithmetic, taken modulo 2^64. *)
Definition size_t (n : Z) : Z := (n mod 2 ^ 64)%Z.

Definition pixel_u (i : Z) : R :=
  (IZR i + 0.5) / IZR (width - 1) - 0.5.

Definition pixel_v (j : Z) : R :=
  (IZR (size_t (size_t (height - 1) - j)) + 0.5) / IZR (height - 1) - 0.5.

Definition fov : R := 0.5 / tan (70 * 3.14159265 * 0.5 / 180).

(** The ray [main] traces for pixel [(i, j)]. *)
Definition pixel_ray (i j : Z) : Ray :=
  mkRay camera_position
        (normalize (camera_u * pixel_u i + camera_v * pixel_v j
                    + camera_dir * fov)%vec).

(** ** Derived notions for the rest of [main] *)

(** The centre [randVector3] makes from the calls [k], [k+1] and [k+2] of
    [rand()]. *)
Definition center_of_calls (RAND_MAX : Z) (rand_seq : nat -> Z) (k : nat)
  : Vector3 :=
  (mkVector3 (IZR (rand_seq k) * (1 / IZR RAND_MAX))
             (IZR (rand_seq (S k)) * (1 / IZR RAND_MAX))
             (IZR (rand_seq (S (S k))) * (1 / IZR RAND_MAX))
   * 2 - mkVector3 1 1 1)%vec.

(** ** The pixel buffer of [main] *)

(** Sequencing of steps that can fail. *)
Definition and_then {A B : Type} (m : option A) (k : A -> option B) : option B :=
  match m with
  | Some a => k a
  | None => None
  end.

(** [for (size_t k = 0; k < n; ++k)]: the values [k] takes. *)
Definition range (n : Z) : list Z := map Z.of_nat (seq 0 (Z.to_nat n)).

(** Running a loop body over the values of its counter; the loop stops
    with [None] as soon as a turn does. *)
Fixpoint for_each {A S : Type} (xs : list A) (body : A -> S -> option S)
         (s : S) : option S :=
  match xs with
  | [] => Some s
  | k :: xs' => and_then (body k s) (for_each xs' body)
  end.

(** [size_t index = 3*(width * j + i)]. *)
Definition pixel_index (i j : Z) : Z :=
  size_t (3 * size_t (size_t (width * j) + i)).

(** The number of floats in [new float[width*height*3]], an [unsigned int]
    product. *)
Definition pixels_length : Z :=
  (((width * height) mod 2 ^ 32 * 3) mod 2 ^ 32)%Z.

(** [pixels[k] = v] and [pixels[k]]; outside the buffer they are [None]. *)
Definition store_at (k : Z) (v : R) (pixels : list R) : option (list R) :=
  if ((0 <=? k)%Z && (k <? Z.of_nat (List.length pixels))%Z)%bool
  then Some (firstn (Z.to_nat k) pixels ++ v :: skipn (S (Z.to_nat k)) pixels)
  else None.

Definition load_at (k : Z) (pixels : list R) : option R :=
  if (0 <=? k)%Z then nth_error pixels (Z.to_nat k) else None.

(** The body of the rendering loops for pixel [(i, j)]; [trace ray] is
    [traverser.traverse(ray, false)], whose code is in FastBVH/Traverser.h. *)
Definition render_pixel (trace : Ray -> Intersection) (i j : Z)
           (pixels : list R) : option (list R) :=
  let index := pixel_index i j in
  let ray := pixel_ray i j in
  match trace ray with
  | NoHit =>
      and_then (store_at (size_t (index + 2)) 0 pixels) (fun pixels =>
      and_then (store_at (size_t (index + 1)) 0 pixels) (fun pixels =>
      store_at index 0 pixels))
  | Hit _ _ normal =>
      let color :=
        mkVector3 (Rabs (x normal)) (Rabs (y normal)) (Rabs (z normal)) in
      and_then (store_at index (x color) pixels) (fun pixels =>
      and_then (store_at (size_t (index + 1)) (y color) pixels) (fun pixels =>
      store_at (size_t (index + 2)) (z color) pixels))
  end.

(** The rendering loops: [i] outside, [j] inside. *)
Definition render (trace : Ray -> Intersection) (pixels : list R)
  : option (list R) :=
  for_each (range width)
           (fun i => for_each (range height) (fun j => render_pixel trace i j))
           pixels.

(** [std::min] and [std::max]. *)
Definition fmin (a b : R) : R := if Rlt_dec b a then b else a.
Definition fmax (a b : R) : R := if Rlt_dec a b then b else a.

(** Conversion of a float to [unsigned char]: the fraction is dropped. *)
Definition trunc (v : R) : Z :=
  if Rlt_dec v 0 then (- Int_part (- v))%Z else Int_part v.

Definition to_uchar (v : R) : Z := (trunc v mod 256)%Z.

(** [std::max(std::min(p*255.f, 255.f), 0.f)], stored in an
    [unsigned char]. *)
Definition color_byte (p : R) : Z := to_uchar (fmax (fmin (p * 255) 255) 0).

(** The body of the writing loops for pixel [(i, j)]: three bytes are
    appended to the file. *)
Definition write_pixel (pixels : list R) (i j : Z) (out : list Z)
  : option (list Z) :=
  let index := pixel_index i j in
  and_then (load_at index pixels) (fun pr =>
  and_then (load_at (size_t (index + 1)) pixels) (fun pg =>
  and_then (load_at (size_t (index + 2)) pixels) (fun pb =>
  Some (out ++ [color_byte pr; color_byte pg; color_byte pb])))).

(** The writing loops: [j] outside, [i] inside. *)
Definition write_pixels (pixels : list R) : option (list Z) :=
  for_each (range height)
           (fun j => for_each (range width) (fun i => write_pixel pixels i j))
           [].

(** The colour [main] gives pixel [(i, j)]: black on a miss, the absolute
    values of the normal on a hit. *)
Definition pixel_color (trace : Ray -> Intersection) (i j : Z) : Vector3 :=
  match trace (pixel_ray i j) with
  | NoHit => mkVector3 0 0 0
  | Hit _ _ normal =>
      mkVector3 (Rabs (x normal)) (Rabs (y normal)) (Rabs (z normal))
  end.

(** Channel [c] (0, 1 or 2) of a colour. *)
Definition channel (c : Z) (v : Vector3) : R :=
  if (c =? 0)%Z then x v else if (c =? 1)%Z then y v else z v.

(** A traversal to run the renderer with: it hits [sphere_ahead] only. *)
Definition trace_sphere_ahead (ray : Ray) : Intersection :=
  SphereIntersector sphere_ahead ray.

(** Slot [c] of pixel [(i, j)] in the buffer. *)
Definition slot (i j c : Z) : nat := Z.to_nat (pixel_index i j + c).

(** The buffer holds the colour of pixel [(i, j)] in the pixel's three
    slots. *)
Definition pixel_stored (trace : Ray -> Intersection) (pixels : list R)
           (i j : Z) : Prop :=
  forall c : Z,
    (0 <= c < 3)%Z ->
    nth_error pixels (slot i j c) = Some (channel c (pixel_color trace i j)).

(** A buffer of the size [main] allocates, whatever it holds. *)
Definition fresh_pixels : list R := repeat 0 (Z.to_nat pixels_length).

(** A traversal that reports the same hit, with a unit normal, for every
    ray. *)
Definition trace_always_hit (ray : Ray) : Intersection :=
  Hit 1 sphere_ahead (mkVector3 1 0 0).

(** ** The capabilities in binary32

    [main] instantiates the templates at [float].  This module evaluates
    the same code in IEEE 754 binary32, with the operations of the Standard
    Library's [SpecFloat] at precision 24 and maximal exponent 128, each
    operation rounded to nearest-even, with no fused or extended-precision
    evaluation. *)
Module Binary32.
Import SpecFloat.

Definition prec : Z := 24.
Definition emax : Z := 128.

Definition float : Type := spec_float.

Definition fadd : float -> float -> float := SFadd prec emax.
Definition fsub : float -> float -> float := SFsub prec emax.
Definition fmul : float -> float -> float := SFmul prec emax.
Definition fdiv : float -> float -> float := SFdiv prec emax.
Definition fsqrt : float -> float := SFsqrt prec emax.
Definition flt : float -> float -> bool := SFltb.

(** The float nearest to [n * 2^e]; [of_Z n] is the float nearest to [n]. *)
Definition scaled (n e : Z) : float := binary_normalize prec emax n e false.
Definition of_Z (n : Z) : float := scaled n 0.

(** The literal [0.f]. *)
Definition zero : float := S754_zero false.

Definition is_nan (f : float) : bool :=
  match f with S754_nan => true | _ => false end.

Definition is_finite (f : float) : bool :=
  match f with S754_zero _ | S754_finite _ _ _ => true | _ => false end.

(** The real number a finite float stands for, [m * 2^e] with its sign
    (0 for the others). *)
Definition B2R (f : float) : R :=
  match f with
  | S754_finite s m (Zneg p) => IZR (cond_Zopp s (Zpos m)) / IZR (Z.pow_pos 2 p)
  | S754_finite s m e => IZR (cond_Zopp s (Zpos m) * 2 ^ e)
  | _ => 0
  end.

(** Modelled from the spec: [Vector3] of FastBVH/Vector3.h, at [float];
    sums are taken left to right. *)
Record Vector3 : Type := mkVector3 { x : float; y : float; z : float }.

Definition vadd (a b : Vector3) : Vector3 :=
  mkVector3 (fadd (x a) (x b)) (fadd (y a) (y b)) (fadd (z a) (z b)).

Definition vsub (a b : Vector3) : Vector3 :=
  mkVector3 (fsub (x a) (x b)) (fsub (y a) (y b)) (fsub (z a) (z b)).

Definition vscale (a : Vector3) (k : float) : Vector3 :=
  mkVector3 (fmul (x a) k) (fmul (y a) k) (fmul (z a) k).

Definition dot (a b : Vector3) : float :=
  fadd (fadd (fmul (x a) (x b)) (fmul (y a) (y b))) (fmul (z a) (z b)).

Definition length (a : Vector3) : float := fsqrt (dot a a).

Definition normalize (a : Vector3) : Vector3 :=
  vscale a (fdiv (of_Z 1) (length a)).

(** [struct Sphere] and its constructor. *)
Record Sphere : Type := mkSphere { center : Vector3; r : float; r2 : float }.

Definition Sphere_new (c : Vector3) (radius : float) : Sphere :=
  mkSphere c radius (fmul radius radius).

(** Modelled from the spec: [BBox], [Ray] and [Intersection], as above. *)
Record BBox : Type := mkBBox { bmin : Vector3; bmax : Vector3 }.

Record Ray : Type := mkRay { o : Vector3; d : Vector3 }.

Inductive Intersection : Type :=
| NoHit : Intersection
| Hit (t : float) (object : Sphere) (normal : Vector3) : Intersection.

(** [SphereBoxConverter::operator()]. *)
Definition SphereBoxConverter (sphere : Sphere) : BBox :=
  let r := r sphere in
  let box_delta := mkVector3 r r r in
  mkBBox (vsub (center sphere) box_delta) (vadd (center sphere) box_delta).

(** The values the intersector computes on its way. *)
Definition sd_of (sphere : Sphere) (ray : Ray) : float :=
  dot (vsub (center sphere) (o ray)) (d ray).

Definition ss_of (sphere : Sphere) (ray : Ray) : float :=
  dot (vsub (center sphere) (o ray)) (vsub (center sphere) (o ray)).

Definition disc_of (sphere : Sphere) (ray : Ray) : float :=
  fadd (fsub (fmul (sd_of sphere ray) (sd_of sphere ray)) (ss_of sphere ray))
       (r2 sphere).

Definition t_of (sphere : Sphere) (ray : Ray) : float :=
  fsub (sd_of sphere ray) (fsqrt (disc_of sphere ray)).

Definition hit_pos_of (sphere : Sphere) (ray : Ray) : Vector3 :=
  vadd (o ray) (vscale (d ray) (t_of sphere ray)).

(** [SphereIntersector::operator()]. *)
Definition SphereIntersector (sphere : Sphere) (ray : Ray) : Intersection :=
  let center := center sphere in
  let r2 := r2 sphere in
  let s := vsub center (o ray) in
  let sd := dot s (d ray) in
  let ss := dot s s in
  let disc := fadd (fsub (fmul sd sd) ss) r2 in
  if flt disc zero then NoHit
  else
    let t := fsub sd (fsqrt disc) in
    let hit_pos := vadd (o ray) (vscale (d ray) t) in
    let normal := normalize (vsub hit_pos center) in
    Hit t sphere normal.

(** Inputs: the ray from the origin along +x, a unit sphere far away, a
    unit sphere the origin is just outside of, and a small sphere beside
    the ray. *)
Definition x_axis_ray : Ray :=
  mkRay (mkVector3 zero zero zero) (mkVector3 (of_Z 1) zero zero).

Definition sphere_1e8 : Sphere :=
  Sphere_new (mkVector3 (of_Z 100000000) zero zero) (of_Z 1).

Definition sphere_touching : Sphere :=
  Sphere_new (mkVector3 (of_Z 1) (scaled 1 (-13)) zero) (of_Z 1).

Definition sphere_beside : Sphere :=
  Sphere_new (mkVector3 (of_Z 3) (scaled 1 (-11)) zero) (scaled 1 (-13)).

End Binary32.

(** The real vectors, spheres and rays that binary32 ones stand for. *)
Definition vector_of32 (v : Binary32.Vector3) : Vector3 :=
  mkVector3 (Binary32.B2R (Binary32.x v)) (Binary32.B2R (Binary32.y v))
            (Binary32.B2R (Binary32.z v)).

Definition sphere_of32 (s : Binary32.Sphere) : Sphere :=
  mkSphere (vector_of32 (Binary32.center s)) (Binary32.B2R (Binary32.r s))
           (Binary32.B2R (Binary32.r2 s)).

Definition ray_of32 (q : Binary32.Ray) : Ray :=
  mkRay (vector_of32 (Binary32.o q)) (vector_of32 (Binary32.d q)).

Definition box_of32 (b : Binary32.BBox) : BBox :=
  mkBBox (vector_of32 (Binary32.bmin b)) (vector_of32 (Binary32.bmax b)).

(** ** The capabilities called through references *)

(** An intersection as the caller holds it: the hit primitive is referred
    to by its address. *)
Inductive IntersectionRef : Type :=
| RefNoHit : IntersectionRef
| RefHit (t : R) (object : nat) (normal : Vector3) : IntersectionRef.

(** The result for the sphere at address [p]. *)
Definition with_object (p : nat) (i : Intersection) : IntersectionRef :=
  match i with
  | NoHit => RefNoHit
  | Hit t _ normal => RefHit t p normal
  end.

(** Reading a field through a [const Sphere&] or a [const Ray&]. *)
Definition read_sphere {A : Type} (field : Sphere -> A) (p : nat) : M A :=
  sphere <- load_sphere p ;; ret (field sphere).

Definition read_ray {A : Type} (field : Ray -> A) (p : nat) : M A :=
  ray <- load_ray p ;; ret (field ray).

(** [SphereBoxConverter::operator()], every field read where the code
    names it. *)
Definition SphereBoxConverter_ref (psphere : nat) : M BBox :=
  r <- read_sphere r psphere ;;
  let box_delta := mkVector3 r r r in
  cmin <- read_sphere center psphere ;;
  cmax <- read_sphere center psphere ;;
  ret (mkBBox (cmin - box_delta)%vec (cmax + box_delta)%vec).

(** [SphereIntersector::operator()], every field read where the code names
    it; the populated result holds [&sphere]. *)
Definition SphereIntersector_ref (psphere pray : nat) : M IntersectionRef :=
  centre <- read_sphere center psphere ;;
  ray_o <- read_ray o pray ;;
  let s := (centre - ray_o)%vec in
  ray_d <- read_ray d pray ;;
  let sd := dot s ray_d in
  let ss := dot s s in
  r2 <- read_sphere r2 psphere ;;
  let disc := sd * sd - ss + r2 in
  if Rlt_dec disc 0 then ret RefNoHit
  else
    let t := sd - sqrt disc in
    ray_o <- read_ray o pray ;;
    ray_d <- read_ray d pray ;;
    let hit_pos := (ray_o + ray_d * t)%vec in
    sphere_center <- read_sphere center psphere ;;
    let normal := normalize (hit_pos - sphere_center)%vec in
    ret (RefHit t psphere normal).

(** A store with two equal spheres at two addresses. *)
Definition twin_store : Store :=
  mkStore [sphere_ahead; sphere_ahead] [x_axis_ray] 0.
(** ** Vector algebra *)

Lemma Sphere_new_ok (c : Vector3) (radius : R) : sphere_ok (Sphere_new c radius).
Proof. reflexivity. Qed.

Lemma dot_self_nonneg (a : Vector3) : 0 <= dot a a.
Proof. unfold dot. nra. Qed.

Lemma dot_comm (a b : Vector3) : dot a b = dot b a.
Proof. unfold dot. ring. Qed.

Lemma dot_vscale_l (a b : Vector3) (k : R) : dot (a * k)%vec b = k * dot a b.
Proof. unfold dot, vscale; simpl. ring. Qed.

Lemma dot_vadd_l (a b c : Vector3) : dot (a + b)%vec c = dot a c + dot b c.
Proof. unfold dot, vadd; simpl. ring. Qed.

Lemma dot_cross_l (a b : Vector3) : dot (cross a b) a = 0.
Proof. unfold dot, cross; simpl. ring. Qed.

Lemma dot_cross_r (a b : Vector3) : dot (cross a b) b = 0.
Proof. unfold dot, cross; simpl. ring. Qed.

Lemma length_nonneg (a : Vector3) : 0 <= length a.
Proof. apply sqrt_pos. Qed.

Lemma length_sqr (a : Vector3) : length a * length a = dot a a.
Proof. apply sqrt_sqrt, dot_self_nonneg. Qed.

Lemma length_one_dot (a : Vector3) : length a = 1 <-> dot a a = 1.
Proof.
  split; intros H.
  - rewrite <- length_sqr, H. ring.
  - unfold length. rewrite H. apply sqrt_1.
Qed.

Lemma length_pos (a : Vector3) : 0 < dot a a -> 0 < length a.
Proof. intros H. now apply sqrt_lt_R0. Qed.

(** Normalising a vector of non-zero length gives a unit vector. *)
Lemma normalize_unit (a : Vector3) : 0 < dot a a -> length (normalize a) = 1.
Proof.
  intros H. apply length_one_dot.
  unfold normalize. rewrite dot_vscale_l, dot_comm, dot_vscale_l.
  rewrite <- length_sqr. pose proof (length_pos a H) as Hl.
  field. lra.
Qed.

(** ** The quadratic solved by the intersector *)

(** Squared distance from the sphere centre to the ray point at [t], as a
    polynomial in [t]. *)
Lemma dist2_point_at (sphere : Sphere) (ray : Ray) (t : R) :
  dist2 (point_at ray t) (center sphere)
  = t * t * dot (d ray) (d ray) - 2 * t * sd_of sphere ray + ss_of sphere ray.
Proof.
  unfold dist2, point_at, sd_of, ss_of, dot, vsub, vadd, vscale; simpl. ring.
Qed.


Lemma SphereIntersector_hit (sphere : Sphere) (ray : Ray) :
  0 <= disc_of sphere ray ->
  SphereIntersector sphere ray
  = Hit (sd_of sphere ray - sqrt (disc_of sphere ray)) sphere
        (normalize (point_at ray (sd_of sphere ray - sqrt (disc_of sphere ray))
                    - center sphere)%vec).
Proof.
  intros H. unfold SphereIntersector; cbv zeta.
  fold (sd_of sphere ray) (ss_of sphere ray) (disc_of sphere ray).
  destruct (Rlt_dec (disc_of sphere ray) 0); [lra | reflexivity].
Qed.

(** With a unit direction the smaller root lies on the sphere. *)
Lemma first_root_on_sphere (sphere : Sphere) (ray : Ray) :
  sphere_ok sphere -> dot (d ray) (d ray) = 1 -> 0 <= disc_of sphere ray ->
  dist2 (point_at ray (sd_of sphere ray - sqrt (disc_of sphere ray)))
        (center sphere) = r sphere * r sphere.
Proof.
  intros Hok Hd Hdisc. rewrite dist2_point_at, Hd.
  pose proof (sqrt_sqrt _ Hdisc) as Hq.
  set (q := sqrt (disc_of sphere ray)) in *.
  unfold disc_of in Hq. rewrite Hok in Hq. lra.
Qed.

(** Every root of the quadratic is at least the smaller root. *)
Lemma first_root_least (sphere : Sphere) (ray : Ray) (t' : R) :
  sphere_ok sphere -> dot (d ray) (d ray) = 1 -> 0 <= disc_of sphere ray ->
  dist2 (point_at ray t') (center sphere) = r sphere * r sphere ->
  sd_of sphere ray - sqrt (disc_of sphere ray) <= t'.
Proof.
  intros Hok Hd Hdisc Ht'. rewrite dist2_point_at, Hd in Ht'.
  pose proof (sqrt_sqrt _ Hdisc) as Hq.
  pose proof (sqrt_pos (disc_of sphere ray)) as Hq0.
  set (q := sqrt (disc_of sphere ray)) in *.
  unfold disc_of in Hq. rewrite Hok in Hq.
  set (sd := sd_of sphere ray) in *.
  destruct (Rle_dec (sd - q) t') as [|Hn]; [assumption | exfalso].
  assert (Hgap : 0 < sd - t' - q) by lra.
  assert (Hsum : 0 < sd - t' + q) by lra.
  pose proof (Rmult_lt_0_compat _ _ Hgap Hsum). nra.
Qed.

(** ** Boxes *)



(** A vector whose squared length is [k * k], with [k >= 0], has length [k]. *)
Lemma length_of_square (a : Vector3) (k : R) :
  0 <= k -> dot a a = k * k -> length a = k.
Proof. intros Hk H. unfold length. rewrite H. now apply sqrt_square. Qed.

(** A bound on the length bounds every component. *)
Lemma length_le_components (a : Vector3) (k : R) :
  length a <= k ->
  (- k <= x a <= k) /\ (- k <= y a <= k) /\ (- k <= z a <= k).
Proof.
  intros H. pose proof (length_nonneg a) as H0.
  pose proof (length_sqr a) as Hs. unfold dot in Hs.
  set (l := length a) in *.
  assert (Hk : l * l <= k * k) by nra.
  repeat split; nra.
Qed.

(** The six points where a sphere touches its box. *)
Lemma pole_in_sphere (sphere : Sphere) (e : Vector3) :
  0 <= r sphere -> dot e e = 1 ->
  in_sphere sphere (center sphere + e * r sphere)%vec.
Proof.
  intros Hr He. unfold in_sphere. apply Req_le, length_of_square; [assumption |].
  unfold dot in *; simpl.
  transitivity (r sphere * r sphere * (x e * x e + y e * y e + z e * z e));
    [ring | rewrite He; ring].
Qed.

(** ** The intersector *)


(** The returned distance is positive when the origin is outside the sphere
    and the centre is not behind the origin. *)
Lemma first_root_positive (sphere : Sphere) (ray : Ray) :
  sphere_ok sphere ->
  r sphere * r sphere < ss_of sphere ray ->
  0 <= sd_of sphere ray ->
  0 <= disc_of sphere ray ->
  0 < sd_of sphere ray - sqrt (disc_of sphere ray).
Proof.
  intros Hok Hout Hsd Hdisc.
  pose proof (sqrt_sqrt _ Hdisc) as Hq.
  pose proof (sqrt_pos (disc_of sphere ray)) as Hq0.
  set (q := sqrt (disc_of sphere ray)) in *.
  unfold disc_of in Hq. rewrite Hok in Hq. nra.
Qed.

(** The intersector evaluated on three inputs. *)
Lemma SphereIntersector_sphere_behind :
  SphereIntersector sphere_behind x_axis_ray
  = Hit (-3) sphere_behind
        (normalize (point_at x_axis_ray (-3) - center sphere_behind)%vec).
Proof.
  assert (Hd : disc_of sphere_behind x_axis_ray = 1)
    by (unfold disc_of, sd_of, ss_of, dot; simpl; ring).
  assert (Hs : sd_of sphere_behind x_axis_ray = -2)
    by (unfold sd_of, dot; simpl; ring).
  rewrite SphereIntersector_hit by (rewrite Hd; lra).
  rewrite Hd, Hs, sqrt_1.
  replace (-2 - 1) with (-3) by ring. reflexivity.
Qed.

Lemma SphereIntersector_sphere_far :
  SphereIntersector sphere_far stretched_ray
  = Hit 1 sphere_far
        (normalize (point_at stretched_ray 1 - center sphere_far)%vec).
Proof.
  assert (Hd : disc_of sphere_far stretched_ray = 7 * 7)
    by (unfold disc_of, sd_of, ss_of, dot; simpl; ring).
  assert (Hs : sd_of sphere_far stretched_ray = 8)
    by (unfold sd_of, dot; simpl; ring).
  rewrite SphereIntersector_hit by (rewrite Hd; lra).
  rewrite Hd, Hs, sqrt_square by lra.
  replace (8 - 7) with 1 by ring. reflexivity.
Qed.

(** C10: [SphereIntersector] can report hits behind the ray origin: there
    are a sphere and a ray with unit direction, origin strictly outside the
    sphere, centre behind the origin ([sd < 0]) and discriminant [>= 0], for
    which the result is populated with a strictly negative distance; the
    capability does not filter on [t >= 0]. *)
Theorem SphereIntersector_hit_behind_origin :
  exists (sphere : Sphere) (ray : Ray) (t : R) (normal : Vector3),
    sphere_ok sphere /\
    length (d ray) = 1 /\
    r sphere * r sphere < ss_of sphere ray /\
    sd_of sphere ray < 0 /\
    0 <= disc_of sphere ray /\
    SphereIntersector sphere ray = Hit t sphere normal /\
    t < 0.
Proof.
  exists sphere_behind, x_axis_ray, (-3).
  eexists. repeat split.
  - apply length_one_dot. unfold dot; simpl; ring.
  - unfold ss_of, dot; simpl; lra.
  - unfold sd_of, dot; simpl; lra.
  - unfold disc_of, sd_of, ss_of, dot; simpl; lra.
  - apply SphereIntersector_sphere_behind.
  - lra.
Qed.

(** ** Camera rays *)

(** Lagrange's identity, in the form of the Cauchy-Schwarz inequality. *)
Lemma dot_sqr_le (a b : Vector3) : dot a b * dot a b <= dot a a * dot b b.
Proof.
  assert (H : dot a a * dot b b - dot a b * dot a b
              = dot (cross a b) (cross a b))
    by (unfold dot, cross; simpl; ring).
  pose proof (dot_self_nonneg (cross a b)). lra.
Qed.

Lemma dot_nonzero_pos (a b : Vector3) : dot a b <> 0 -> 0 < dot a a.
Proof.
  intros H. pose proof (dot_self_nonneg a) as Ha.
  pose proof (dot_sqr_le a b) as Hc.
  destruct Ha as [Ha | Ha]; [assumption | exfalso].
  rewrite <- Ha in Hc. apply H. nra.
Qed.

Lemma normalize_dot (a b : Vector3) :
  dot (normalize a) b = 1 / length a * dot a b.
Proof. unfold normalize. apply dot_vscale_l. Qed.

Lemma camera_dir_unit : dot camera_dir camera_dir = 1.
Proof.
  apply length_one_dot. unfold camera_dir. apply normalize_unit.
  unfold dot; simpl. lra.
Qed.

Lemma camera_u_dir : dot camera_u camera_dir = 0.
Proof.
  unfold camera_u. rewrite normalize_dot, dot_cross_l. ring.
Qed.

Lemma camera_v_dir : dot camera_v camera_dir = 0.
Proof.
  unfold camera_v. rewrite normalize_dot, dot_cross_r. ring.
Qed.

Lemma fov_pos : 0 < fov.
Proof.
  unfold fov. apply Rdiv_lt_0_compat; [lra |].
  apply tan_gt_0; [lra |].
  pose proof PI2_1. lra.
Qed.

Lemma pixel_ray_unit (i j : Z) : length (d (pixel_ray i j)) = 1.
Proof.
  unfold pixel_ray; simpl d. apply normalize_unit.
  apply dot_nonzero_pos with (b := camera_dir).
  rewrite !dot_vadd_l, !dot_vscale_l.
  rewrite camera_u_dir, camera_v_dir, camera_dir_unit.
  pose proof fov_pos. lra.
Qed.

(** C9: the distance computed by [SphereIntersector] is right only for unit
    directions: there are a sphere and a ray with a non-unit direction for
    which the populated result's [t] does not put [origin + t*direction] on
    the sphere surface; accordingly every ray that [main] passes to
    [traverse] has a normalized direction. *)
Theorem SphereIntersector_needs_unit_direction :
  (exists (sphere : Sphere) (ray : Ray) (t : R) (normal : Vector3),
      sphere_ok sphere /\
      length (d ray) <> 1 /\
      SphereIntersector sphere ray = Hit t sphere normal /\
      dist2 (point_at ray t) (center sphere) <> r sphere * r sphere) /\
  (forall i j : Z,
      exists w : Vector3,
        d (pixel_ray i j) = normalize w /\ length (d (pixel_ray i j)) = 1).
Proof.
  split.
  - exists sphere_far, stretched_ray, 1. eexists. repeat split.
    + intros H. apply length_one_dot in H. unfold dot in H; simpl in H. lra.
    + apply SphereIntersector_sphere_far.
    + unfold dist2, dot; simpl. lra.
  - intros i j. eexists. split; [reflexivity | apply pixel_ray_unit].
Qed.

(** ** The capabilities and the program state *)

Lemma SphereBoxConverter_call_eq (st : Store) (ps : nat) (sphere : Sphere) :
  nth_error (spheres st) ps = Some sphere ->
  SphereBoxConverter_call ps st = Some (SphereBoxConverter sphere, st).
Proof.
  intros Hs. unfold SphereBoxConverter_call, bind, load_sphere, ret.
  now rewrite Hs.
Qed.

Lemma SphereIntersector_call_eq (st : Store) (ps pr : nat)
      (sphere : Sphere) (ray : Ray) :
  nth_error (spheres st) ps = Some sphere ->
  nth_error (rays st) pr = Some ray ->
  SphereIntersector_call ps pr st = Some (SphereIntersector sphere ray, st).
Proof.
  intros Hs Hr. unfold SphereIntersector_call, bind, load_sphere, load_ray, ret.
  now rewrite Hs, Hr.
Qed.

(** C7: [SphereIntersector] does not mutate the sphere or the ray passed to
    it: after the call both arguments, and every other field of the state,
    have their pre-call values. *)
Theorem SphereIntersector_call_frame
        (st : Store) (ps pr : nat) (sphere : Sphere) (ray : Ray) :
  nth_error (spheres st) ps = Some sphere ->
  nth_error (rays st) pr = Some ray ->
  exists (hit : Intersection) (st' : Store),
    SphereIntersector_call ps pr st = Some (hit, st') /\
    nth_error (spheres st') ps = Some sphere /\
    nth_error (rays st') pr = Some ray /\
    st' = st.
Proof.
  intros Hs Hr. exists (SphereIntersector sphere ray), st.
  rewrite (SphereIntersector_call_eq _ _ _ _ _ Hs Hr). auto.
Qed.

Lemma SphereIntersector_call_frame_witness :
  exists (hit : Intersection) (st' : Store),
    SphereIntersector_call 1 0
      (mkStore [sphere_far; sphere_ahead] [x_axis_ray] 3) = Some (hit, st') /\
    nth_error (spheres st') 1 = Some sphere_ahead /\
    nth_error (rays st') 0 = Some x_axis_ray /\
    st' = mkStore [sphere_far; sphere_ahead] [x_axis_ray] 3.
Proof.
  apply (SphereIntersector_call_frame
           (mkStore [sphere_far; sphere_ahead] [x_axis_ray] 3) 1 0
           sphere_ahead x_axis_ray); reflexivity.
Defined.

(** ** Scene construction *)

Section Scene.

Variable RAND_MAX : Z.
Variable rand_seq : nat -> Z.

(** The C standard makes [RAND_MAX] at least 32767. *)
Hypothesis RAND_MAX_min : (32767 <= RAND_MAX)%Z.
Hypothesis rand_range : forall k : nat, (0 <= rand_seq k <= RAND_MAX)%Z.

(** The value [rand01] computes from a call of [rand()] is in [0, 1]. *)
Lemma rand01_value_range (k : nat) :
  0 <= IZR (rand_seq k) * (1 / IZR RAND_MAX) <= 1.
Proof.
  destruct (rand_range k) as [Hlo Hhi].
  apply IZR_le in Hlo, Hhi.
  assert (Hmax : 0 < IZR RAND_MAX) by (apply IZR_lt; lia).
  assert (Hinv : 0 < / IZR RAND_MAX) by now apply Rinv_0_lt_compat.
  unfold Rdiv. rewrite Rmult_1_l. split.
  - apply Rmult_le_pos; lra.
  - rewrite <- (Rinv_r (IZR RAND_MAX)) by lra.
    apply Rmult_le_compat_r; lra.
Qed.

Lemma rand01_eq (st : Store) :
  rand01 RAND_MAX rand_seq st
  = Some (IZR (rand_seq (rand_calls st)) * (1 / IZR RAND_MAX),
          mkStore (spheres st) (rays st) (S (rand_calls st))).
Proof. reflexivity. Qed.

Lemma randVector3_eq (st : Store) :
  randVector3 RAND_MAX rand_seq st
  = Some ((mkVector3
             (IZR (rand_seq (rand_calls st)) * (1 / IZR RAND_MAX))
             (IZR (rand_seq (S (rand_calls st))) * (1 / IZR RAND_MAX))
             (IZR (rand_seq (S (S (rand_calls st)))) * (1 / IZR RAND_MAX))
           * 2 - mkVector3 1 1 1)%vec,
          mkStore (spheres st) (rays st) (S (S (S (rand_calls st))))).
Proof. reflexivity. Qed.

(** Each component of a vector made by [randVector3] is in [-1, 1]. *)
Lemma randVector3_in_cube (st : Store) (c : Vector3) (st' : Store) :
  randVector3 RAND_MAX rand_seq st = Some (c, st') -> in_unit_cube c.
Proof.
  rewrite randVector3_eq. intros H; injection H as <- _.
  pose proof (rand01_value_range (rand_calls st)).
  pose proof (rand01_value_range (S (rand_calls st))).
  pose proof (rand01_value_range (S (S (rand_calls st)))).
  unfold in_unit_cube; simpl. lra.
Qed.

Lemma scene_sphere_new (c : Vector3) :
  in_unit_cube c -> scene_sphere (Sphere_new c 0.005).
Proof.
  intros Hc. unfold scene_sphere. split; [reflexivity | split; [exact Hc |]].
  unfold in_unit_cube in Hc. unfold box_in_cube, vle; simpl. lra.
Qed.

(** One turn of the loop appends one sphere of the scene. *)
Lemma loop_body_appends (st : Store) :
  exists (s : Sphere) (st' : Store),
    (c <- randVector3 RAND_MAX rand_seq ;;
     emplace_back (Sphere_new c 0.005)) st = Some (tt, st') /\
    spheres st' = spheres st ++ [s] /\ scene_sphere s.
Proof.
  unfold bind. rewrite randVector3_eq.
  eexists; eexists. split; [reflexivity |]. split; [reflexivity |].
  apply scene_sphere_new.
  apply (randVector3_in_cube st _ _ (randVector3_eq st)).
Qed.

(** [n] turns of the loop append [n] spheres of the scene. *)
Lemma for_loop_appends (n : N) (st : Store) :
  exists (added : list Sphere) (st' : Store),
    for_loop n
      (c <- randVector3 RAND_MAX rand_seq ;;
       emplace_back (Sphere_new c 0.005)) st = Some (tt, st') /\
    spheres st' = spheres st ++ added /\
    N.of_nat (List.length added) = n /\
    Forall scene_sphere added.
Proof.
  induction n as [| n IH] using N.peano_ind.
  - exists [], st. repeat split; [now rewrite app_nil_r | constructor].
  - destruct IH as (added & st1 & Hrun & Happ & Hlen & Hall).
    destruct (loop_body_appends st1) as (s & st2 & Hbody & Happ2 & Hs).
    exists (added ++ [s]), st2. repeat split.
    + unfold for_loop in *. rewrite N.iter_succ.
      unfold bind at 1. rewrite Hrun. exact Hbody.
    + rewrite Happ2, Happ. now rewrite app_assoc.
    + rewrite length_app, Nat.add_comm. simpl List.length.
      rewrite Nat2N.inj_succ. now rewrite Hlen.
    + apply Forall_app. split; [assumption | now constructor].
Qed.

(** C8: assuming [rand()] returns values in [0, RAND_MAX], the scene loop
    of [main] builds exactly 1,000,000 spheres, each with radius 0.005 and
    with every component of its centre in [-1, 1], so that every sphere's
    bounding box lies within the cube [-1.005, 1.005]^3. *)
Theorem construct_spheres_scene (st : Store) :
  spheres st = [] ->
  exists st' : Store,
    construct_spheres RAND_MAX rand_seq st = Some (tt, st') /\
    N.of_nat (List.length (spheres st')) = 1000000%N /\
    Forall scene_sphere (spheres st').
Proof.
  intros Hempty. unfold construct_spheres.
  destruct (for_loop_appends N_spheres st)
    as (added & st' & Hrun & Happ & Hlen & Hall).
  rewrite Hempty in Happ; simpl in Happ.
  exists st'. rewrite Happ. auto.
Qed.

End Scene.

Lemma construct_spheres_scene_witness :
  exists st' : Store,
    construct_spheres 32767 counting_rand (mkStore [] [] 0) = Some (tt, st') /\
    N.of_nat (List.length (spheres st')) = 1000000%N /\
    Forall scene_sphere (spheres st').
Proof.
  apply (construct_spheres_scene 32767 counting_rand).
  - lia.
  - intros k. unfold counting_rand.
    pose proof (Z.mod_pos_bound (Z.of_nat k) 32768). lia.
  - reflexivity.
Defined.

(** ** Random numbers *)

(** X7: [randVector3] makes exactly three calls of [rand()], used in order
    for the x, y and z components, leaves the spheres and the rays alone,
    and returns a vector with every component in [-1, 1]. *)
Theorem randVector3_spec (RAND_MAX : Z) (rand_seq : nat -> Z) (st : Store) :
  (32767 <= RAND_MAX)%Z ->
  (forall k : nat, (0 <= rand_seq k <= RAND_MAX)%Z) ->
  exists (v : Vector3) (st' : Store),
    randVector3 RAND_MAX rand_seq st = Some (v, st') /\
    in_unit_cube v /\
    x v = 2 * IZR (rand_seq (rand_calls st)) / IZR RAND_MAX - 1 /\
    y v = 2 * IZR (rand_seq (1 + rand_calls st)%nat) / IZR RAND_MAX - 1 /\
    z v = 2 * IZR (rand_seq (2 + rand_calls st)%nat) / IZR RAND_MAX - 1 /\
    rand_calls st' = (3 + rand_calls st)%nat /\
    spheres st' = spheres st /\ rays st' = rays st.
Proof.
  intros Hmax Hrange. eexists; eexists.
  split; [apply randVector3_eq |].
  split; [apply (randVector3_in_cube RAND_MAX rand_seq Hmax Hrange st _ _
                   (randVector3_eq RAND_MAX rand_seq st)) |].
  assert (HM : IZR RAND_MAX <> 0)
    by (apply Rgt_not_eq, Rlt_gt, IZR_lt; lia).
  simpl. repeat split; field; exact HM.
Qed.

Lemma randVector3_spec_witness :
  exists (v : Vector3) (st' : Store),
    randVector3 32767 counting_rand (mkStore [] [] 0) = Some (v, st') /\
    in_unit_cube v.
Proof.
  destruct (randVector3_spec 32767 counting_rand (mkStore [] [] 0))
    as (v & st' & Hrun & Hcube & _).
  - lia.
  - intros k. unfold counting_rand.
    pose proof (Z.mod_pos_bound (Z.of_nat k) 32768). lia.
  - exists v, st'. split; assumption.
Defined.

(** ** The scene loop, exactly *)

Lemma scene_body_eq (RAND_MAX : Z) (rand_seq : nat -> Z) (st : Store) :
  (c <- randVector3 RAND_MAX rand_seq ;;
   emplace_back (Sphere_new c 0.005)) st
  = Some (tt, mkStore
                (spheres st
                 ++ [Sphere_new (center_of_calls RAND_MAX rand_seq
                                                 (rand_calls st)) 0.005])
                (rays st) (3 + rand_calls st)).
Proof. reflexivity. Qed.

Lemma scene_loop_exact (RAND_MAX : Z) (rand_seq : nat -> Z) (n : N)
      (st : Store) :
  exists (added : list Sphere) (st' : Store),
    for_loop n
      (c <- randVector3 RAND_MAX rand_seq ;;
       emplace_back (Sphere_new c 0.005)) st = Some (tt, st') /\
    spheres st' = spheres st ++ added /\
    rays st' = rays st /\
    rand_calls st' = (rand_calls st + 3 * List.length added)%nat /\
    N.of_nat (List.length added) = n /\
    (forall (k : nat) (s : Sphere),
        nth_error added k = Some s ->
        s = Sphere_new (center_of_calls RAND_MAX rand_seq
                                        (rand_calls st + 3 * k)) 0.005).
Proof.
  induction n as [| n IH] using N.peano_ind.
  - exists [], st. repeat split.
    + now rewrite app_nil_r.
    + simpl. lia.
    + intros [| k] s H; discriminate.
  - destruct IH as (added & st1 & Hrun & Happ & Hrays & Hcalls & Hlen & Hnth).
    set (s1 := Sphere_new (center_of_calls RAND_MAX rand_seq (rand_calls st1))
                          0.005).
    exists (added ++ [s1]),
           (mkStore (spheres st1 ++ [s1]) (rays st1) (3 + rand_calls st1)).
    split; [| repeat split].
    + unfold for_loop in *. rewrite N.iter_succ.
      unfold bind at 1. rewrite Hrun. apply scene_body_eq.
    + simpl. rewrite Happ. now rewrite app_assoc.
    + exact Hrays.
    + simpl. rewrite length_app. simpl List.length. lia.
    + rewrite length_app. simpl List.length. lia.
    + intros k s Hk.
      destruct (Nat.lt_ge_cases k (List.length added)) as [Hlt | Hge].
      * rewrite nth_error_app1 in Hk by assumption. now apply Hnth.
      * rewrite nth_error_app2 in Hk by assumption.
        destruct (k - List.length added)%nat as [| m] eqn:Hm.
        -- injection Hk as <-. unfold s1. rewrite Hcalls.
           replace k with (List.length added) by lia. reflexivity.
        -- destruct m; discriminate.
Qed.

(** X8: the scene loop never fails and is an append: it keeps the spheres
    already stored, leaves the rays alone, makes exactly 3,000,000 calls of
    [rand()], and the [k]-th sphere it adds has radius 0.005 and the centre
    made from the calls [3k], [3k+1] and [3k+2] that follow the calls made
    before the loop. *)
Theorem construct_spheres_exact (RAND_MAX : Z) (rand_seq : nat -> Z)
        (st : Store) :
  exists (added : list Sphere) (st' : Store),
    construct_spheres RAND_MAX rand_seq st = Some (tt, st') /\
    spheres st' = spheres st ++ added /\
    rays st' = rays st /\
    N.of_nat (rand_calls st') = (N.of_nat (rand_calls st) + 3000000)%N /\
    N.of_nat (List.length added) = 1000000%N /\
    (forall (k : nat) (s : Sphere),
        nth_error added k = Some s ->
        s = Sphere_new (center_of_calls RAND_MAX rand_seq
                                        (rand_calls st + 3 * k)) 0.005).
Proof.
  destruct (scene_loop_exact RAND_MAX rand_seq N_spheres st)
    as (added & st' & Hrun & Happ & Hrays & Hcalls & Hlen & Hnth).
  exists added, st'. unfold N_spheres in Hlen. repeat split; try assumption.
  rewrite Hcalls. lia.
Qed.

(** ** Pixel coordinates and the camera frame *)

Lemma size_t_small (n : Z) : (0 <= n < 2 ^ 64)%Z -> size_t n = n.
Proof. intros H. unfold size_t. now apply Z.mod_small. Qed.

(** X9: for a pixel [(i, j)] of the image, [u = (2i - 798) / 1598], and [v]
    is the same function of the flipped row, [v(j) = u(799 - j)], the
    [size_t] subtraction not wrapping; so [u] grows with [i], [v] falls with
    [j], and both lie in [(-1/2, 1/2 + 1/1598]]: the range is not centred
    on 0. *)
Theorem pixel_coordinates (i j : Z) :
  (0 <= i < width)%Z ->
  (0 <= j < height)%Z ->
  pixel_u i = (2 * IZR i - 798) / 1598 /\
  pixel_v j = pixel_u (height - 1 - j) /\
  (- (1 / 2) < pixel_u i <= 1 / 2 + 1 / 1598) /\
  (- (1 / 2) < pixel_v j <= 1 / 2 + 1 / 1598).
Proof.
  unfold width, height. intros Hi Hj.
  assert (Hu : forall k : Z, pixel_u k = (2 * IZR k - 798) / 1598).
  { intros k. unfold pixel_u, width.
    replace (IZR (800 - 1)) with 799 by (simpl; lra). lra. }
  assert (Hv : pixel_v j = pixel_u (800 - 1 - j)).
  { unfold pixel_v, pixel_u, height, width.
    rewrite (size_t_small (800 - 1)) by lia.
    rewrite size_t_small by lia. reflexivity. }
  assert (Hri : 0 <= IZR i <= 799)
    by (split; [apply (IZR_le 0) | apply (IZR_le i 799)]; lia).
  assert (Hrj : 0 <= IZR (800 - 1 - j) <= 799)
    by (split; [apply (IZR_le 0) | apply (IZR_le _ 799)]; lia).
  split; [apply Hu |]. split; [exact Hv |].
  rewrite Hv, !Hu. lra.
Qed.

Lemma pixel_coordinates_witness :
  pixel_u 0 = (2 * IZR 0 - 798) / 1598 /\
  pixel_v 799 = pixel_u (height - 1 - 799) /\
  (- (1 / 2) < pixel_u 0 <= 1 / 2 + 1 / 1598) /\
  (- (1 / 2) < pixel_v 799 <= 1 / 2 + 1 / 1598).
Proof.
  apply (pixel_coordinates 0 799); unfold width, height; lia.
Defined.

(** Lagrange's identity. *)
Lemma cross_dot_self (a b : Vector3) :
  dot (cross a b) (cross a b) = dot a a * dot b b - dot a b * dot a b.
Proof. unfold dot, cross; simpl. ring. Qed.

Lemma normalize_dot_self (a : Vector3) :
  0 < dot a a -> dot (normalize a) (normalize a) = 1.
Proof. intros H. now apply length_one_dot, normalize_unit. Qed.

Lemma camera_dir_up : dot camera_dir camera_up * dot camera_dir camera_up < 1.
Proof.
  unfold camera_dir. rewrite normalize_dot.
  set (v := (camera_focus - camera_position)%vec).
  assert (Hvv : dot v v = 6.81) by (unfold v, dot; simpl; lra).
  assert (Hvu : dot v camera_up = -1.3) by (unfold v, dot; simpl; lra).
  pose proof (length_sqr v) as Hl. rewrite Hvv in Hl.
  assert (Hpos : 0 < length v) by (apply length_pos; lra).
  rewrite Hvu. unfold Rdiv. rewrite Rmult_1_l.
  assert (Hk : / length v * length v = 1) by (apply Rinv_l; lra).
  assert (Hkk : / length v * / length v * (length v * length v) = 1).
  { transitivity (/ length v * length v * (/ length v * length v)); [ring |].
    rewrite Hk. ring. }
  rewrite Hl in Hkk. nra.
Qed.

Lemma camera_u_unit : dot camera_u camera_u = 1.
Proof.
  unfold camera_u. apply normalize_dot_self.
  rewrite cross_dot_self, camera_dir_unit.
  assert (dot camera_up camera_up = 1) by (unfold dot; simpl; ring).
  pose proof camera_dir_up. lra.
Qed.

Lemma camera_v_unit : dot camera_v camera_v = 1.
Proof.
  unfold camera_v. apply normalize_dot_self.
  rewrite cross_dot_self, camera_u_unit, camera_dir_unit, camera_u_dir. lra.
Qed.

Lemma camera_v_u : dot camera_v camera_u = 0.
Proof.
  unfold camera_v. rewrite normalize_dot, dot_cross_l. ring.
Qed.

(** The camera frame of [main] is orthonormal. *)
Lemma camera_frame_orthonormal :
  dot camera_dir camera_dir = 1 /\ dot camera_u camera_u = 1 /\
  dot camera_v camera_v = 1 /\ dot camera_u camera_dir = 0 /\
  dot camera_v camera_dir = 0 /\ dot camera_v camera_u = 0.
Proof.
  repeat split;
    auto using camera_dir_unit, camera_u_unit, camera_v_unit, camera_u_dir,
               camera_v_dir, camera_v_u.
Qed.

(** X10: every pixel ray starts at the camera position, and in the
    (orthonormal) camera frame its direction is [(u, v, fov)] divided by its
    length: the components along [camera_u], [camera_v] and [camera_dir] are
    [u/n], [v/n] and [fov/n] with [n = sqrt (u^2 + v^2 + fov^2)]; in
    particular every ray points forward, [dot d camera_dir > 0]. *)
Theorem pixel_ray_in_camera_frame (i j : Z) :
  o (pixel_ray i j) = camera_position /\
  dot (d (pixel_ray i j)) camera_u
  = pixel_u i / sqrt (pixel_u i * pixel_u i + pixel_v j * pixel_v j + fov * fov) /\
  dot (d (pixel_ray i j)) camera_v
  = pixel_v j / sqrt (pixel_u i * pixel_u i + pixel_v j * pixel_v j + fov * fov) /\
  dot (d (pixel_ray i j)) camera_dir
  = fov / sqrt (pixel_u i * pixel_u i + pixel_v j * pixel_v j + fov * fov) /\
  0 < dot (d (pixel_ray i j)) camera_dir.
Proof.
  destruct camera_frame_orthonormal as (Hdd & Huu & Hvv & Hud & Hvd & Hvu).
  pose proof fov_pos as Hf.
  set (a := pixel_u i). set (b := pixel_v j).
  set (w := (camera_u * a + camera_v * b + camera_dir * fov)%vec).
  assert (Hwu : dot w camera_u = a).
  { unfold w. rewrite !dot_vadd_l, !dot_vscale_l.
    rewrite Huu, Hvu, (dot_comm camera_dir camera_u), Hud. ring. }
  assert (Hwv : dot w camera_v = b).
  { unfold w. rewrite !dot_vadd_l, !dot_vscale_l.
    rewrite Hvv, (dot_comm camera_u camera_v), Hvu,
      (dot_comm camera_dir camera_v), Hvd. ring. }
  assert (Hwd : dot w camera_dir = fov).
  { unfold w. rewrite !dot_vadd_l, !dot_vscale_l.
    rewrite Hud, Hvd, Hdd. ring. }
  assert (Hww : dot w w = a * a + b * b + fov * fov).
  { unfold w at 1. rewrite !dot_vadd_l, !dot_vscale_l.
    rewrite (dot_comm camera_u w), (dot_comm camera_v w),
      (dot_comm camera_dir w), Hwu, Hwv, Hwd. ring. }
  assert (Hn : 0 < sqrt (a * a + b * b + fov * fov))
    by (apply sqrt_lt_R0; nra).
  assert (Hd : d (pixel_ray i j) = normalize w) by reflexivity.
  rewrite Hd, !normalize_dot, Hwu, Hwv, Hwd.
  unfold length. rewrite Hww.
  split; [reflexivity |].
  repeat split; try (field; lra).
  apply Rmult_lt_0_compat; [| exact Hf].
  apply Rdiv_lt_0_compat; lra.
Qed.

(** ** Pixel indices *)

Lemma pixel_index_eq (i j : Z) :
  (0 <= i < width)%Z -> (0 <= j < height)%Z ->
  pixel_index i j = (3 * (800 * j + i))%Z.
Proof.
  unfold pixel_index, width, height. intros Hi Hj.
  rewrite (size_t_small (800 * j)) by lia.
  rewrite (size_t_small (800 * j + i)) by lia.
  apply size_t_small. lia.
Qed.

Lemma pixels_length_eq : pixels_length = 1920000%Z.
Proof. reflexivity. Qed.

(** X11: the pixel index is safe and exact: for every pixel of the image no
    [size_t] product wraps, [index = 3*(800*j + i)], the three slots
    [index], [index+1], [index+2] lie inside the buffer of
    [width*height*3] floats, and two slots of pixels coincide only for the
    same pixel and the same channel. *)
Theorem pixel_index_in_bounds (i j c i' j' c' : Z) :
  (0 <= i < width)%Z -> (0 <= j < height)%Z -> (0 <= c < 3)%Z ->
  (0 <= i' < width)%Z -> (0 <= j' < height)%Z -> (0 <= c' < 3)%Z ->
  pixel_index i j = (3 * (800 * j + i))%Z /\
  (0 <= pixel_index i j + c < pixels_length)%Z /\
  ((pixel_index i j + c = pixel_index i' j' + c')%Z ->
   i = i' /\ j = j' /\ c = c').
Proof.
  intros Hi Hj Hc Hi' Hj' Hc'.
  rewrite (pixel_index_eq i j Hi Hj), (pixel_index_eq i' j' Hi' Hj').
  rewrite pixels_length_eq. unfold width, height in *.
  split; [reflexivity |]. split; [lia |]. intros H. lia.
Qed.

Lemma pixel_index_in_bounds_witness :
  pixel_index 799 799 = (3 * (800 * 799 + 799))%Z /\
  (0 <= pixel_index 799 799 + 2 < pixels_length)%Z /\
  ((pixel_index 799 799 + 2 = pixel_index 0 0 + 0)%Z ->
   799%Z = 0%Z /\ 799%Z = 0%Z /\ 2%Z = 0%Z).
Proof.
  apply (pixel_index_in_bounds 799 799 2 0 0 0); unfold width, height; lia.
Defined.

(** X12: every slot of the buffer belongs to a pixel: a position [k] below
    [width*height*3] is slot [k mod 3] of the pixel in column
    [(k / 3) mod 800] and row [(k / 3) / 800] of the image. *)
Theorem pixel_index_covers (k : Z) :
  (0 <= k < pixels_length)%Z ->
  (0 <= (k / 3) mod 800 < width)%Z /\
  (0 <= (k / 3) / 800 < height)%Z /\
  (0 <= k mod 3 < 3)%Z /\
  (pixel_index ((k / 3) mod 800) ((k / 3) / 800) + k mod 3 = k)%Z.
Proof.
  rewrite pixels_length_eq. intros Hk.
  assert (Hi : (0 <= (k / 3) mod 800 < width)%Z)
    by (unfold width; apply Z.mod_pos_bound; lia).
  assert (Hj : (0 <= (k / 3) / 800 < height)%Z).
  { unfold height. split.
    - apply Z.div_pos; [apply Z.div_pos |]; lia.
    - apply Z.div_lt_upper_bound; [lia |].
      apply Z.div_lt_upper_bound; lia. }
  split; [exact Hi |]. split; [exact Hj |].
  split; [apply Z.mod_pos_bound; lia |].
  rewrite (pixel_index_eq _ _ Hi Hj).
  rewrite <- (Z.div_mod (k / 3) 800) by lia.
  rewrite <- (Z.div_mod k 3) by lia. reflexivity.
Qed.

Lemma pixel_index_covers_witness :
  (pixel_index ((1919999 / 3) mod 800) ((1919999 / 3) / 800) + 1919999 mod 3
   = 1919999)%Z.
Proof.
  apply (pixel_index_covers 1919999). rewrite pixels_length_eq. lia.
Defined.

(** ** Loops and buffer accesses *)

Lemma in_range (n k : Z) : In k (range n) <-> (0 <= k < n)%Z.
Proof.
  unfold range. rewrite in_map_iff. split.
  - intros (m & <- & Hm). apply in_seq in Hm. lia.
  - intros Hk. exists (Z.to_nat k). split; [lia |]. apply in_seq. lia.
Qed.

(** A loop over [0 .. n-1] establishes what each turn carries one step
    further. *)
Lemma for_each_range {T : Type} (body : Z -> T -> option T)
      (P : Z -> T -> Prop) (n : Z) :
  (0 <= n)%Z ->
  (forall (k : Z) (s : T),
      (0 <= k < n)%Z -> P k s ->
      exists s' : T, body k s = Some s' /\ P (k + 1)%Z s') ->
  forall s : T, P 0%Z s ->
  exists s' : T, for_each (range n) body s = Some s' /\ P n s'.
Proof.
  intros Hn Hstep. unfold range.
  assert (Hgen : forall (m a : nat) (s : T),
             (a + m = Z.to_nat n)%nat -> P (Z.of_nat a) s ->
             exists s' : T,
               for_each (map Z.of_nat (seq a m)) body s = Some s' /\ P n s').
  { induction m as [| m IH]; intros a s Ham Hs.
    - exists s. split; [reflexivity |].
      replace n with (Z.of_nat a) by lia. exact Hs.
    - destruct (Hstep (Z.of_nat a) s) as (s1 & Hbody & Hs1); [lia | exact Hs |].
      destruct (IH (S a) s1) as (s2 & Hrest & Hs2); [lia | |].
      + replace (Z.of_nat (S a)) with (Z.of_nat a + 1)%Z by lia. exact Hs1.
      + exists s2. split; [| exact Hs2].
        simpl. rewrite Hbody. exact Hrest. }
  intros s Hs. apply (Hgen (Z.to_nat n) 0%nat s); [lia | exact Hs].
Qed.

Lemma nth_error_update (l : list R) (n : nat) (v : R) (m : nat) :
  (n < List.length l)%nat ->
  nth_error (firstn n l ++ v :: skipn (S n) l) m
  = if Nat.eqb m n then Some v else nth_error l m.
Proof.
  revert n m. induction l as [| a l IH]; intros n m Hn; simpl in Hn; [lia |].
  destruct n as [| n].
  - destruct m; reflexivity.
  - destruct m as [| m]; [reflexivity |].
    change (nth_error (firstn n l ++ v :: skipn (S n) l) m
            = if Nat.eqb m n then Some v else nth_error l m).
    apply IH. lia.
Qed.

Lemma length_update (l : list R) (n : nat) (v : R) :
  (n < List.length l)%nat ->
  List.length (firstn n l ++ v :: skipn (S n) l) = List.length l.
Proof.
  intros Hn. rewrite length_app, length_firstn. cbn [List.length].
  rewrite length_skipn. lia.
Qed.

(** A store inside the buffer succeeds, keeps the length, and changes the
    stored slot only. *)
Lemma store_at_inside (k : Z) (v : R) (pixels : list R) :
  (0 <= k < Z.of_nat (List.length pixels))%Z ->
  exists pixels' : list R,
    store_at k v pixels = Some pixels' /\
    List.length pixels' = List.length pixels /\
    (forall m : nat,
        nth_error pixels' m
        = if Nat.eqb m (Z.to_nat k) then Some v else nth_error pixels m).
Proof.
  intros Hk. unfold store_at.
  destruct (0 <=? k)%Z eqn:H0; [| apply Z.leb_gt in H0; lia].
  destruct (k <? Z.of_nat (List.length pixels))%Z eqn:H1;
    [| apply Z.ltb_ge in H1; lia].
  cbn [andb]. eexists. split; [reflexivity |]. split.
  - apply length_update. lia.
  - intros m. apply nth_error_update. lia.
Qed.

(** A store outside the buffer fails. *)
Lemma store_at_outside (k : Z) (v : R) (pixels : list R) :
  (k < 0 \/ Z.of_nat (List.length pixels) <= k)%Z ->
  store_at k v pixels = None.
Proof.
  intros Hk. unfold store_at.
  destruct (0 <=? k)%Z eqn:H0; [| reflexivity].
  destruct (k <? Z.of_nat (List.length pixels))%Z eqn:H1; [| reflexivity].
  apply Z.leb_le in H0. apply Z.ltb_lt in H1. lia.
Qed.

(** ** Rendering *)

Lemma slot_eq (i j c : Z) :
  (0 <= i < width)%Z -> (0 <= j < height)%Z -> (0 <= c < 3)%Z ->
  slot i j c = Z.to_nat (3 * (800 * j + i) + c).
Proof. intros Hi Hj Hc. unfold slot. now rewrite pixel_index_eq. Qed.

(** One turn of the rendering loops: the three slots of the pixel are
    written, and nothing else is. *)
Lemma render_pixel_spec (trace : Ray -> Intersection) (i j : Z)
      (pixels : list R) :
  (0 <= i < width)%Z -> (0 <= j < height)%Z ->
  Z.of_nat (List.length pixels) = pixels_length ->
  exists pixels' : list R,
    render_pixel trace i j pixels = Some pixels' /\
    List.length pixels' = List.length pixels /\
    pixel_stored trace pixels' i j /\
    (forall m : nat,
        m <> slot i j 0 -> m <> slot i j 1 -> m <> slot i j 2 ->
        nth_error pixels' m = nth_error pixels m).
Proof.
  intros Hi Hj Hlen. rewrite pixels_length_eq in Hlen.
  assert (Hidx := pixel_index_eq i j Hi Hj).
  assert (Hb : (0 <= pixel_index i j <= 1919997)%Z)
    by (rewrite Hidx; unfold width, height in *; lia).
  assert (H1 : size_t (pixel_index i j + 1) = (pixel_index i j + 1)%Z)
    by (apply size_t_small; lia).
  assert (H2 : size_t (pixel_index i j + 2) = (pixel_index i j + 2)%Z)
    by (apply size_t_small; lia).
  unfold render_pixel, pixel_stored, pixel_color, slot.
  cbv zeta. rewrite H1, H2.
  set (idx := pixel_index i j) in *.
  destruct (trace (pixel_ray i j)) as [| t object normal].
  - destruct (store_at_inside (idx + 2) 0 pixels) as (p1 & E1 & L1 & N1);
      [lia |].
    destruct (store_at_inside (idx + 1) 0 p1) as (p2 & E2 & L2 & N2); [lia |].
    destruct (store_at_inside idx 0 p2) as (p3 & E3 & L3 & N3); [lia |].
    exists p3. rewrite E1; cbn [and_then]. rewrite E2; cbn [and_then].
    split; [exact E3 |]. split; [congruence |]. split.
    + intros c Hc. rewrite N3, N2, N1.
      assert (Hcase : c = 0%Z \/ c = 1%Z \/ c = 2%Z) by lia.
      destruct Hcase as [-> | [-> | ->]]; cbn [channel Z.eqb x y z];
        repeat (match goal with
                | |- context [Nat.eqb ?a ?b] =>
                    destruct (Nat.eqb_spec a b); try lia
                end); reflexivity.
    + intros m M0 M1 M2. rewrite N3, N2, N1.
      repeat (match goal with
              | |- context [Nat.eqb ?a ?b] =>
                  destruct (Nat.eqb_spec a b); try lia
              end); try reflexivity;
        exfalso; subst m;
          first [ apply M0; f_equal; lia | apply M1; f_equal; lia
                | apply M2; f_equal; lia ].
  - set (cx := Rabs (x normal)). set (cy := Rabs (y normal)).
    set (cz := Rabs (z normal)). cbn [x y z].
    destruct (store_at_inside idx cx pixels) as (p1 & E1 & L1 & N1); [lia |].
    destruct (store_at_inside (idx + 1) cy p1) as (p2 & E2 & L2 & N2); [lia |].
    destruct (store_at_inside (idx + 2) cz p2) as (p3 & E3 & L3 & N3); [lia |].
    exists p3. rewrite E1; cbn [and_then]. rewrite E2; cbn [and_then].
    split; [exact E3 |]. split; [congruence |]. split.
    + intros c Hc. rewrite N3, N2, N1.
      assert (Hcase : c = 0%Z \/ c = 1%Z \/ c = 2%Z) by lia.
      destruct Hcase as [-> | [-> | ->]]; cbn [channel Z.eqb x y z];
        repeat (match goal with
                | |- context [Nat.eqb ?a ?b] =>
                    destruct (Nat.eqb_spec a b); try lia
                end); reflexivity.
    + intros m M0 M1 M2. rewrite N3, N2, N1.
      repeat (match goal with
              | |- context [Nat.eqb ?a ?b] =>
                  destruct (Nat.eqb_spec a b); try lia
              end); try reflexivity;
        exfalso; subst m;
          first [ apply M0; f_equal; lia | apply M1; f_equal; lia
                | apply M2; f_equal; lia ].
Qed.

(** A turn of the rendering loops keeps the pixels stored before it. *)
Lemma render_pixel_keeps (trace : Ray -> Intersection)
      (done : Z -> Z -> Prop) (I J : Z) (pixels : list R) :
  (0 <= I < width)%Z -> (0 <= J < height)%Z ->
  Z.of_nat (List.length pixels) = pixels_length ->
  (forall i j : Z,
      (0 <= i < width)%Z -> (0 <= j < height)%Z -> done i j ->
      pixel_stored trace pixels i j) ->
  exists pixels' : list R,
    render_pixel trace I J pixels = Some pixels' /\
    Z.of_nat (List.length pixels') = pixels_length /\
    (forall i j : Z,
        (0 <= i < width)%Z -> (0 <= j < height)%Z ->
        done i j \/ (i = I /\ j = J) ->
        pixel_stored trace pixels' i j).
Proof.
  intros HI HJ Hlen Hdone.
  destruct (render_pixel_spec trace I J pixels HI HJ Hlen)
    as (pixels' & Hrun & Hlen' & Hnew & Hold).
  exists pixels'. split; [exact Hrun |]. split; [congruence |].
  intros i j Hi Hj Hcase.
  destruct (Z.eq_dec i I) as [-> | HiI];
    [destruct (Z.eq_dec j J) as [-> | HjJ]; [exact Hnew |] |].
  - destruct Hcase as [Hd | [_ Hjj]]; [| contradiction].
    intros c Hc. rewrite Hold; [now apply Hdone | | |];
      rewrite !slot_eq by lia; unfold width, height in *; lia.
  - destruct Hcase as [Hd | [Hii _]]; [| contradiction].
    intros c Hc. rewrite Hold; [now apply Hdone | | |];
      rewrite !slot_eq by lia; unfold width, height in *; lia.
Qed.

(** The inner loop renders one column. *)
Lemma render_column (trace : Ray -> Intersection) (I : Z) (pixels : list R) :
  (0 <= I < width)%Z ->
  Z.of_nat (List.length pixels) = pixels_length ->
  (forall i j : Z,
      (0 <= i < width)%Z -> (0 <= j < height)%Z -> (i < I)%Z ->
      pixel_stored trace pixels i j) ->
  exists pixels' : list R,
    for_each (range height) (fun j => render_pixel trace I j) pixels
    = Some pixels' /\
    Z.of_nat (List.length pixels') = pixels_length /\
    (forall i j : Z,
        (0 <= i < width)%Z -> (0 <= j < height)%Z -> (i < I + 1)%Z ->
        pixel_stored trace pixels' i j).
Proof.
  intros HI Hlen Hdone.
  destruct (for_each_range
              (fun j => render_pixel trace I j)
              (fun J p =>
                 Z.of_nat (List.length p) = pixels_length /\
                 forall i j : Z,
                   (0 <= i < width)%Z -> (0 <= j < height)%Z ->
                   (i < I \/ (i = I /\ j < J))%Z ->
                   pixel_stored trace p i j)
              height) with (s := pixels) as (pixels' & Hrun & Hlen' & Hall).
  - unfold height; lia.
  - intros J p HJ [Hl Hp].
    destruct (render_pixel_keeps
                trace (fun i j => (i < I \/ (i = I /\ j < J))%Z) I J p HI HJ Hl Hp)
      as (p' & Hrun & Hl' & Hp').
    exists p'. split; [exact Hrun |]. split; [exact Hl' |].
    intros i j Hi Hj Hcase. apply Hp'; try assumption. lia.
  - split; [exact Hlen |]. intros i j Hi Hj Hcase.
    apply Hdone; try assumption. lia.
  - exists pixels'. split; [exact Hrun |]. split; [exact Hlen' |].
    intros i j Hi Hj Hlt. apply Hall; try assumption. lia.
Qed.

Lemma render_all_columns (trace : Ray -> Intersection) (pixels : list R) :
  Z.of_nat (List.length pixels) = pixels_length ->
  exists pixels' : list R,
    render trace pixels = Some pixels' /\
    List.length pixels' = List.length pixels /\
    (forall i j : Z,
        (0 <= i < width)%Z -> (0 <= j < height)%Z ->
        pixel_stored trace pixels' i j).
Proof.
  intros Hlen. unfold render.
  destruct (for_each_range
              (fun i => for_each (range height)
                                 (fun j => render_pixel trace i j))
              (fun I p =>
                 Z.of_nat (List.length p) = pixels_length /\
                 forall i j : Z,
                   (0 <= i < width)%Z -> (0 <= j < height)%Z -> (i < I)%Z ->
                   pixel_stored trace p i j)
              width) with (s := pixels) as (pixels' & Hrun & Hlen' & Hall).
  - unfold width; lia.
  - intros I p HI [Hl Hp]. now apply render_column.
  - split; [exact Hlen |]. intros i j Hi Hj Hlt. lia.
  - exists pixels'. split; [exact Hrun |]. split; [lia |].
    intros i j Hi Hj. apply Hall; try assumption. lia.
Qed.

(** X13: rendering into a buffer of [width*height*3] floats never leaves
    the buffer, keeps its length, and writes every pixel: whatever the
    buffer held before, afterwards the three slots of each pixel [(i, j)]
    hold the colour of the ray traced for that pixel: zeros on a miss, the
    absolute values of the normal's components on a hit. *)
Theorem render_fills_buffer (trace : Ray -> Intersection) (pixels : list R) :
  Z.of_nat (List.length pixels) = pixels_length ->
  exists pixels' : list R,
    render trace pixels = Some pixels' /\
    List.length pixels' = List.length pixels /\
    (forall i j : Z,
        (0 <= i < width)%Z -> (0 <= j < height)%Z ->
        pixel_stored trace pixels' i j).
Proof. exact (render_all_columns trace pixels). Qed.

Lemma fresh_pixels_length : Z.of_nat (List.length fresh_pixels) = pixels_length.
Proof.
  unfold fresh_pixels. rewrite repeat_length. apply Z2Nat.id.
  rewrite pixels_length_eq. lia.
Qed.

Lemma render_fills_buffer_witness :
  exists pixels' : list R,
    render trace_sphere_ahead fresh_pixels = Some pixels' /\
    List.length pixels' = List.length fresh_pixels /\
    (forall i j : Z,
        (0 <= i < width)%Z -> (0 <= j < height)%Z ->
        pixel_stored trace_sphere_ahead pixels' i j).
Proof.
  apply (render_fills_buffer trace_sphere_ahead fresh_pixels).
  apply fresh_pixels_length.
Defined.

(** ** Colour bytes *)

Lemma Int_part_mono (a b : R) : a <= b -> (Int_part a <= Int_part b)%Z.
Proof.
  intros Hab.
  destruct (base_Int_part a) as [Ha _]. destruct (base_Int_part b) as [_ Hb].
  assert (H : IZR (Int_part a) < IZR (Int_part b + 1))
    by (rewrite plus_IZR; simpl; lra).
  apply lt_IZR in H. lia.
Qed.

Lemma Int_part_IZR (n : Z) : Int_part (IZR n) = n.
Proof.
  destruct (base_Int_part (IZR n)) as [Hlo Hhi].
  assert (H1 : (Int_part (IZR n) <= n)%Z) by now apply le_IZR.
  assert (H2 : IZR n < IZR (Int_part (IZR n) + 1))
    by (rewrite plus_IZR; simpl; lra).
  apply lt_IZR in H2. lia.
Qed.

Lemma clamp_range (p : R) : 0 <= fmax (fmin (p * 255) 255) 0 <= 255.
Proof.
  unfold fmax, fmin.
  destruct (Rlt_dec 255 (p * 255)), (Rlt_dec _ 0); lra.
Qed.

Lemma clamp_mono (p q : R) :
  p <= q -> fmax (fmin (p * 255) 255) 0 <= fmax (fmin (q * 255) 255) 0.
Proof.
  intros Hpq. unfold fmax, fmin.
  destruct (Rlt_dec 255 (p * 255)), (Rlt_dec 255 (q * 255));
    repeat (match goal with
            | |- context [Rlt_dec ?a ?b] => destruct (Rlt_dec a b)
            end); lra.
Qed.

Lemma color_byte_Int_part (p : R) :
  color_byte p = Int_part (fmax (fmin (p * 255) 255) 0).
Proof.
  pose proof (clamp_range p) as Hc. unfold color_byte, to_uchar, trunc.
  set (c := fmax (fmin (p * 255) 255) 0) in *.
  destruct (Rlt_dec c 0) as [Hneg | _]; [lra |].
  apply Z.mod_small.
  pose proof (Int_part_mono 0 c (proj1 Hc)) as H0.
  pose proof (Int_part_mono c 255 (proj2 Hc)) as H1.
  rewrite (Int_part_IZR 0) in H0. rewrite (Int_part_IZR 255) in H1. lia.
Qed.

(** X14: the byte written for a float is always a value an
    [unsigned char] holds, in [0, 255], so the conversion never
    overflows, and brighter floats never give darker bytes. *)
Theorem color_byte_range (p q : R) :
  p <= q ->
  (0 <= color_byte p)%Z /\ (color_byte p <= color_byte q)%Z /\
  (color_byte q <= 255)%Z.
Proof.
  intros Hpq. rewrite !color_byte_Int_part.
  pose proof (Int_part_mono 0 _ (proj1 (clamp_range p))) as H0.
  pose proof (Int_part_mono _ 255 (proj2 (clamp_range q))) as H1.
  rewrite (Int_part_IZR 0) in H0. rewrite (Int_part_IZR 255) in H1.
  split; [exact H0 |]. split; [| exact H1].
  apply Int_part_mono, clamp_mono, Hpq.
Qed.

Lemma color_byte_range_witness :
  (0 <= color_byte (-1))%Z /\ (color_byte (-1) <= color_byte 2)%Z /\
  (color_byte 2 <= 255)%Z.
Proof. apply (color_byte_range (-1) 2). lra. Defined.

Lemma color_byte_inside (p : R) :
  0 <= p <= 1 -> color_byte p = Int_part (p * 255).
Proof.
  intros Hp. rewrite color_byte_Int_part. unfold fmax, fmin.
  destruct (Rlt_dec 255 (p * 255)); [lra |].
  destruct (Rlt_dec (p * 255) 0); [lra | reflexivity].
Qed.

(** X15: the floats outside [0, 1] saturate, to byte 0 below and to byte
    255 above, and a float [p] inside [0, 1] gives the integer part of
    [p * 255]. *)
Theorem color_byte_value (p : R) :
  (p <= 0 -> color_byte p = 0%Z) /\
  (1 <= p -> color_byte p = 255%Z) /\
  (0 <= p <= 1 -> color_byte p = Int_part (p * 255)).
Proof.
  repeat split; intros Hp.
  - rewrite color_byte_Int_part. unfold fmax, fmin.
    destruct (Rlt_dec 255 (p * 255)); [lra |].
    destruct (Rlt_dec (p * 255) 0); [apply (Int_part_IZR 0) |].
    replace (p * 255) with 0 by lra. apply (Int_part_IZR 0).
  - rewrite color_byte_Int_part. unfold fmax, fmin.
    destruct (Rlt_dec 255 (p * 255)).
    + destruct (Rlt_dec 255 0); [lra | apply (Int_part_IZR 255)].
    + destruct (Rlt_dec (p * 255) 0); [lra |].
      replace (p * 255) with 255 by lra. apply (Int_part_IZR 255).
  - now apply color_byte_inside.
Qed.

Lemma Rabs_sqr (a : R) : Rabs a * Rabs a = a * a.
Proof. unfold Rabs. destruct (Rcase_abs a); ring. Qed.

Lemma bright_channel (a : R) :
  0 <= a -> 1 / 3 <= a * a -> a * a <= 1 -> (147 <= color_byte a)%Z.
Proof.
  intros Ha Hlo Hhi.
  assert (Ha1 : a <= 1) by nra.
  rewrite (color_byte_inside a (conj Ha Ha1)).
  assert (H147 : 147 <= a * 255) by nra.
  pose proof (Int_part_mono _ _ H147) as H. now rewrite (Int_part_IZR 147) in H.
Qed.

(** X16: a pixel whose ray hits, with a unit normal, is never black: at
    least one of its three bytes is 147 or more (the largest component of
    a unit vector is at least [1/sqrt 3], and [255/sqrt 3 > 147]), while
    the colour of a missed pixel is black. *)
Theorem hit_pixel_not_black (trace : Ray -> Intersection) (i j : Z)
        (t : R) (object : Sphere) (normal : Vector3) :
  trace (pixel_ray i j) = Hit t object normal ->
  length normal = 1 ->
  exists c : Z,
    (0 <= c < 3)%Z /\
    (147 <= color_byte (channel c (pixel_color trace i j)))%Z.
Proof.
  intros Hhit Hn. apply length_one_dot in Hn. unfold dot in Hn.
  unfold pixel_color. rewrite Hhit.
  pose proof (Rabs_sqr (x normal)) as Hx. pose proof (Rabs_pos (x normal)).
  pose proof (Rabs_sqr (y normal)) as Hy. pose proof (Rabs_pos (y normal)).
  pose proof (Rabs_sqr (z normal)) as Hz. pose proof (Rabs_pos (z normal)).
  pose proof (Rle_0_sqr (x normal)) as Sx. pose proof (Rle_0_sqr (y normal)) as Sy.
  pose proof (Rle_0_sqr (z normal)) as Sz. unfold Rsqr in Sx, Sy, Sz.
  destruct (Rle_dec (1 / 3) (x normal * x normal)) as [Bx | Bx];
    [exists 0%Z; split; [lia |]; cbn [channel Z.eqb x];
     apply bright_channel; lra |].
  destruct (Rle_dec (1 / 3) (y normal * y normal)) as [By | By];
    [exists 1%Z; split; [lia |]; cbn [channel Z.eqb Pos.eqb y];
     apply bright_channel; lra |].
  exists 2%Z. split; [lia |]. cbn [channel Z.eqb Pos.eqb z].
  apply bright_channel; lra.
Qed.

Lemma hit_pixel_not_black_witness :
  exists c : Z,
    (0 <= c < 3)%Z /\
    (147 <= color_byte (channel c (pixel_color trace_always_hit 0 0)))%Z.
Proof.
  apply (hit_pixel_not_black trace_always_hit 0 0 1 sphere_ahead
           (mkVector3 1 0 0)).
  - reflexivity.
  - apply length_one_dot. unfold dot; simpl; ring.
Defined.

Lemma color_byte_value_witness :
  color_byte 0 = 0%Z /\ color_byte 1 = 255%Z /\
  color_byte (1 / 2) = Int_part (1 / 2 * 255).
Proof.
  split; [apply (proj1 (color_byte_value 0)); lra |].
  split; [apply (proj1 (proj2 (color_byte_value 1))); lra |].
  apply (proj2 (proj2 (color_byte_value (1 / 2)))); lra.
Defined.

(** ** Writing the image *)

Lemma firstn_S_nth (l : list R) (n : nat) (a : R) :
  nth_error l n = Some a -> firstn (S n) l = firstn n l ++ [a].
Proof.
  revert n. induction l as [| b l IH]; intros n Hn.
  - destruct n; discriminate.
  - destruct n as [| n].
    + injection Hn as ->. reflexivity.
    + cbn [firstn app]. f_equal. now apply IH.
Qed.

Lemma load_at_inside (k : Z) (pixels : list R) :
  (0 <= k < Z.of_nat (List.length pixels))%Z ->
  exists v : R,
    load_at k pixels = Some v /\ nth_error pixels (Z.to_nat k) = Some v.
Proof.
  intros Hk. unfold load_at.
  destruct (0 <=? k)%Z eqn:H0; [| apply Z.leb_gt in H0; lia].
  destruct (nth_error pixels (Z.to_nat k)) as [v |] eqn:Hv.
  - exists v. split; reflexivity.
  - apply nth_error_None in Hv. lia.
Qed.

(** One turn of the writing loops appends the bytes of the next three
    floats of the buffer. *)
Lemma write_pixel_spec (pixels : list R) (i j : Z) (out : list Z) :
  (0 <= i < width)%Z -> (0 <= j < height)%Z ->
  Z.of_nat (List.length pixels) = pixels_length ->
  out = map color_byte (firstn (Z.to_nat (3 * (800 * j + i))) pixels) ->
  exists out' : list Z,
    write_pixel pixels i j out = Some out' /\
    out' = map color_byte (firstn (Z.to_nat (3 * (800 * j + (i + 1)))) pixels).
Proof.
  intros Hi Hj Hlen Hout. rewrite pixels_length_eq in Hlen.
  assert (Hidx := pixel_index_eq i j Hi Hj).
  assert (Hb : (0 <= pixel_index i j <= 1919997)%Z)
    by (rewrite Hidx; unfold width, height in *; lia).
  unfold write_pixel. cbv zeta.
  rewrite (size_t_small (pixel_index i j + 1)) by lia.
  rewrite (size_t_small (pixel_index i j + 2)) by lia.
  rewrite Hidx. set (n := (3 * (800 * j + i))%Z) in *.
  destruct (load_at_inside n pixels) as (pr & Er & Nr); [lia |].
  destruct (load_at_inside (n + 1) pixels) as (pg & Eg & Ng); [lia |].
  destruct (load_at_inside (n + 2) pixels) as (pb & Eb & Nb); [lia |].
  rewrite Er, Eg, Eb. cbn [and_then]. eexists. split; [reflexivity |].
  replace (Z.to_nat (3 * (800 * j + (i + 1))))
    with (S (S (S (Z.to_nat n)))) by lia.
  replace (Z.to_nat (n + 1)) with (S (Z.to_nat n)) in Ng by lia.
  replace (Z.to_nat (n + 2)) with (S (S (Z.to_nat n))) in Nb by lia.
  rewrite (firstn_S_nth _ _ _ Nb), (firstn_S_nth _ _ _ Ng),
    (firstn_S_nth _ _ _ Nr).
  rewrite !map_app, <- !app_assoc, Hout. reflexivity.
Qed.

Lemma write_row (pixels : list R) (J : Z) (out : list Z) :
  (0 <= J < height)%Z ->
  Z.of_nat (List.length pixels) = pixels_length ->
  out = map color_byte (firstn (Z.to_nat (3 * (800 * J))) pixels) ->
  exists out' : list Z,
    for_each (range width) (fun i => write_pixel pixels i J) out = Some out' /\
    out' = map color_byte (firstn (Z.to_nat (3 * (800 * (J + 1)))) pixels).
Proof.
  intros HJ Hlen Hout.
  destruct (for_each_range
              (fun i => write_pixel pixels i J)
              (fun I o =>
                 o = map color_byte
                         (firstn (Z.to_nat (3 * (800 * J + I))) pixels))
              width) with (s := out) as (out' & Hrun & Hout').
  - unfold width; lia.
  - intros I o HI Ho. now apply write_pixel_spec.
  - rewrite Hout. do 3 f_equal. lia.
  - exists out'. split; [exact Hrun |].
    rewrite Hout'. unfold width. do 3 f_equal. lia.
Qed.

Lemma write_all_rows (pixels : list R) :
  Z.of_nat (List.length pixels) = pixels_length ->
  write_pixels pixels = Some (map color_byte pixels).
Proof.
  intros Hlen. unfold write_pixels.
  destruct (for_each_range
              (fun j => for_each (range width)
                                 (fun i => write_pixel pixels i j))
              (fun J o =>
                 o = map color_byte (firstn (Z.to_nat (3 * (800 * J))) pixels))
              height) with (s := @nil Z) as (out & Hrun & Hout).
  - unfold height; lia.
  - intros J o HJ Ho. now apply write_row.
  - reflexivity.
  - rewrite Hrun, Hout. do 2 f_equal. apply firstn_all2.
    rewrite pixels_length_eq in Hlen. unfold height. lia.
Qed.

(** X17: the writer reads the buffer front to back: for a buffer of
    [width*height*3] floats, no read leaves the buffer, and the bytes
    written after the header are the colour bytes of the floats, in buffer
    order: the rows of the image from the top, each row from the left. *)
Theorem write_pixels_sequential (pixels : list R) :
  Z.of_nat (List.length pixels) = pixels_length ->
  write_pixels pixels = Some (map color_byte pixels).
Proof. exact (write_all_rows pixels). Qed.

Lemma write_pixels_sequential_witness :
  write_pixels fresh_pixels = Some (map color_byte fresh_pixels).
Proof.
  apply (write_pixels_sequential fresh_pixels). apply fresh_pixels_length.
Defined.

(** X18: rendering and then writing: from any buffer of
    [width*height*3] floats both steps succeed, the file body has
    [width*height*3] bytes, and the three bytes at offset
    [3*(800*j + i)] are the colour bytes of pixel [(i, j)]: its column [i]
    counted from the left, its row [j] from the top. *)
Theorem render_then_write (trace : Ray -> Intersection) (pixels : list R) :
  Z.of_nat (List.length pixels) = pixels_length ->
  exists (pixels' : list R) (out : list Z),
    render trace pixels = Some pixels' /\
    write_pixels pixels' = Some out /\
    Z.of_nat (List.length out) = pixels_length /\
    (forall i j c : Z,
        (0 <= i < width)%Z -> (0 <= j < height)%Z -> (0 <= c < 3)%Z ->
        nth_error out (Z.to_nat (3 * (800 * j + i) + c))
        = Some (color_byte (channel c (pixel_color trace i j)))).
Proof.
  intros Hlen.
  destruct (render_all_columns trace pixels Hlen)
    as (pixels' & Hrun & Hlen' & Hstored).
  assert (Hl : Z.of_nat (List.length pixels') = pixels_length) by congruence.
  exists pixels', (map color_byte pixels').
  split; [exact Hrun |]. split; [now apply write_all_rows |].
  split; [now rewrite length_map |].
  intros i j c Hi Hj Hc. rewrite nth_error_map.
  rewrite <- (slot_eq i j c Hi Hj Hc), (Hstored i j Hi Hj c Hc). reflexivity.
Qed.

Lemma render_then_write_witness :
  exists (pixels' : list R) (out : list Z),
    render trace_always_hit fresh_pixels = Some pixels' /\
    write_pixels pixels' = Some out /\
    Z.of_nat (List.length out) = pixels_length.
Proof.
  destruct (render_then_write trace_always_hit fresh_pixels
              fresh_pixels_length)
    as (pixels' & out & Hrun & Hwrite & Hlen & _).
  exists pixels', out. auto.
Defined.

(** ** Binary32: the code as [main] runs it *)

(** Putting the value of a float in decimal form. *)
Ltac b2r :=
  cbv [Binary32.B2R SpecFloat.cond_Zopp Z.opp Binary32.zero];
  repeat match goal with
         | |- context [IZR (Z.pow_pos ?a ?p)] =>
             let n := eval compute in (Z.pow_pos a p) in
             change (Z.pow_pos a p) with n
         | |- context [IZR (?a * ?b ^ ?c)%Z] =>
             let n := eval compute in (a * b ^ c)%Z in
             change (a * b ^ c)%Z with n
         end.

(** The intersector returns a populated result unless the discriminant it
    computed is below zero. *)
Lemma Binary32_SphereIntersector_hit (sphere : Binary32.Sphere)
      (ray : Binary32.Ray) :
  Binary32.flt (Binary32.disc_of sphere ray) Binary32.zero = false ->
  Binary32.SphereIntersector sphere ray
  = Binary32.Hit (Binary32.t_of sphere ray) sphere
                 (Binary32.normalize
                    (Binary32.vsub (Binary32.hit_pos_of sphere ray)
                                   (Binary32.center sphere))).
Proof.
  intros H. unfold Binary32.SphereIntersector; cbv zeta.
  fold (Binary32.sd_of sphere ray) (Binary32.ss_of sphere ray).
  fold (Binary32.disc_of sphere ray). rewrite H. reflexivity.
Qed.

Lemma Binary32_SphereIntersector_miss (sphere : Binary32.Sphere)
      (ray : Binary32.Ray) :
  Binary32.flt (Binary32.disc_of sphere ray) Binary32.zero = true ->
  Binary32.SphereIntersector sphere ray = Binary32.NoHit.
Proof.
  intros H. unfold Binary32.SphereIntersector; cbv zeta.
  fold (Binary32.sd_of sphere ray) (Binary32.ss_of sphere ray).
  fold (Binary32.disc_of sphere ray). rewrite H. reflexivity.
Qed.

Lemma mkVector3_eq (a b c a' b' c' : R) :
  a = a' -> b = b' -> c = c' -> mkVector3 a b c = mkVector3 a' b' c'.
Proof. now intros -> -> ->. Qed.

Lemma mkSphere_eq (c c' : Vector3) (a b a' b' : R) :
  c = c' -> a = a' -> b = b' -> mkSphere c a b = mkSphere c' a' b'.
Proof. now intros -> -> ->. Qed.

(** The inputs, as floats and as the reals they stand for. *)
Lemma x_axis_ray_eval :
  Binary32.x_axis_ray
  = Binary32.mkRay
      (Binary32.mkVector3 Binary32.zero Binary32.zero Binary32.zero)
      (Binary32.mkVector3 (SpecFloat.S754_finite false 8388608 (-23))
                          Binary32.zero Binary32.zero).
Proof. vm_compute. reflexivity. Qed.

Lemma sphere_1e8_eval :
  Binary32.sphere_1e8
  = Binary32.mkSphere
      (Binary32.mkVector3 (SpecFloat.S754_finite false 12500000 3)
                          Binary32.zero Binary32.zero)
      (SpecFloat.S754_finite false 8388608 (-23))
      (SpecFloat.S754_finite false 8388608 (-23)).
Proof. vm_compute. reflexivity. Qed.

Lemma sphere_touching_eval :
  Binary32.sphere_touching
  = Binary32.mkSphere
      (Binary32.mkVector3 (SpecFloat.S754_finite false 8388608 (-23))
                          (SpecFloat.S754_finite false 8388608 (-36))
                          Binary32.zero)
      (SpecFloat.S754_finite false 8388608 (-23))
      (SpecFloat.S754_finite false 8388608 (-23)).
Proof. vm_compute. reflexivity. Qed.

Lemma sphere_beside_eval :
  Binary32.sphere_beside
  = Binary32.mkSphere
      (Binary32.mkVector3 (SpecFloat.S754_finite false 12582912 (-22))
                          (SpecFloat.S754_finite false 8388608 (-34))
                          Binary32.zero)
      (SpecFloat.S754_finite false 8388608 (-36))
      (SpecFloat.S754_finite false 8388608 (-49)).
Proof. vm_compute. reflexivity. Qed.

Lemma x_axis_ray_of32 : ray_of32 Binary32.x_axis_ray = x_axis_ray.
Proof.
  rewrite x_axis_ray_eval. unfold ray_of32, vector_of32, x_axis_ray.
  cbn [Binary32.o Binary32.d Binary32.x Binary32.y Binary32.z].
  b2r. f_equal; apply mkVector3_eq; lra.
Qed.

Lemma sphere_1e8_of32 :
  sphere_of32 Binary32.sphere_1e8 = Sphere_new (mkVector3 100000000 0 0) 1.
Proof.
  rewrite sphere_1e8_eval. unfold sphere_of32, vector_of32, Sphere_new.
  cbn [Binary32.center Binary32.r Binary32.r2 Binary32.x Binary32.y
       Binary32.z].
  b2r. apply mkSphere_eq; [apply mkVector3_eq | |]; lra.
Qed.

Lemma sphere_touching_of32 :
  sphere_of32 Binary32.sphere_touching = Sphere_new (mkVector3 1 (/ 8192) 0) 1.
Proof.
  rewrite sphere_touching_eval. unfold sphere_of32, vector_of32, Sphere_new.
  cbn [Binary32.center Binary32.r Binary32.r2 Binary32.x Binary32.y
       Binary32.z].
  b2r. apply mkSphere_eq; [apply mkVector3_eq | |]; lra.
Qed.

Lemma sphere_beside_of32 :
  sphere_of32 Binary32.sphere_beside
  = Sphere_new (mkVector3 3 (/ 2048) 0) (/ 8192).
Proof.
  rewrite sphere_beside_eval. unfold sphere_of32, vector_of32, Sphere_new.
  cbn [Binary32.center Binary32.r Binary32.r2 Binary32.x Binary32.y
       Binary32.z].
  b2r. apply mkSphere_eq; [apply mkVector3_eq | |]; lra.
Qed.

(** What the code returns for the three spheres. *)
Lemma SphereIntersector_sphere_1e8 :
  Binary32.SphereIntersector Binary32.sphere_1e8 Binary32.x_axis_ray
  = Binary32.Hit (SpecFloat.S754_finite false 12500000 3)
                 Binary32.sphere_1e8
                 (Binary32.mkVector3 SpecFloat.S754_nan SpecFloat.S754_nan
                                     SpecFloat.S754_nan).
Proof. vm_compute. reflexivity. Qed.

Lemma SphereIntersector_sphere_touching :
  Binary32.SphereIntersector Binary32.sphere_touching Binary32.x_axis_ray
  = Binary32.Hit Binary32.zero Binary32.sphere_touching
                 (Binary32.mkVector3
                    (SpecFloat.S754_finite true 8388608 (-23))
                    (SpecFloat.S754_finite true 8388608 (-36))
                    Binary32.zero).
Proof. vm_compute. reflexivity. Qed.

Lemma SphereIntersector_sphere_beside :
  Binary32.SphereIntersector Binary32.sphere_beside Binary32.x_axis_ray
  = Binary32.Hit (SpecFloat.S754_finite false 12582400 (-22))
                 Binary32.sphere_beside
                 (Binary32.mkVector3
                    (SpecFloat.S754_finite true 16276291 (-26))
                    (SpecFloat.S754_finite true 16276291 (-24))
                    Binary32.zero).
Proof. vm_compute. reflexivity. Qed.

Lemma hit_pos_sphere_beside :
  Binary32.hit_pos_of Binary32.sphere_beside Binary32.x_axis_ray
  = Binary32.mkVector3 (SpecFloat.S754_finite false 12582400 (-22))
                       Binary32.zero Binary32.zero.
Proof. vm_compute. reflexivity. Qed.

Lemma SphereBoxConverter_sphere_1e8 :
  Binary32.SphereBoxConverter Binary32.sphere_1e8
  = Binary32.mkBBox
      (Binary32.mkVector3 (SpecFloat.S754_finite false 12500000 3)
                          (SpecFloat.S754_finite true 8388608 (-23))
                          (SpecFloat.S754_finite true 8388608 (-23)))
      (Binary32.mkVector3 (SpecFloat.S754_finite false 12500000 3)
                          (SpecFloat.S754_finite false 8388608 (-23))
                          (SpecFloat.S754_finite false 8388608 (-23))).
Proof. vm_compute. reflexivity. Qed.

Lemma SphereBoxConverter_sphere_beside :
  Binary32.SphereBoxConverter Binary32.sphere_beside
  = Binary32.mkBBox
      (Binary32.mkVector3 (SpecFloat.S754_finite false 12582400 (-22))
                          (SpecFloat.S754_finite false 12582912 (-35))
                          (SpecFloat.S754_finite true 8388608 (-36)))
      (Binary32.mkVector3 (SpecFloat.S754_finite false 12583424 (-22))
                          (SpecFloat.S754_finite false 10485760 (-34))
                          (SpecFloat.S754_finite false 8388608 (-36))).
Proof. vm_compute. reflexivity. Qed.

(** ** The first hit, exactly and in binary32 *)

(** C1, as stated, fails for the code: for the unit sphere centred at
    [(1e8, 0, 0)] and the ray from the origin along +x every hypothesis
    holds and the code returns a populated result, but its distance is
    [1e8], not [sd - sqrt disc = 99999999]; the point [origin + t*d] is the
    centre and not on the surface, and the root [99999999] is below [t]. *)
Lemma SphereIntersector_first_hit_counterexample :
  sphere_ok (sphere_of32 Binary32.sphere_1e8) /\
  0 <= r (sphere_of32 Binary32.sphere_1e8) /\
  length (d (ray_of32 Binary32.x_axis_ray)) = 1 /\
  0 <= disc_of (sphere_of32 Binary32.sphere_1e8)
               (ray_of32 Binary32.x_axis_ray) /\
  exists (t : Binary32.float) (normal : Binary32.Vector3),
    Binary32.SphereIntersector Binary32.sphere_1e8 Binary32.x_axis_ray
    = Binary32.Hit t Binary32.sphere_1e8 normal /\
    Binary32.B2R t
    <> sd_of (sphere_of32 Binary32.sphere_1e8) (ray_of32 Binary32.x_axis_ray)
       - sqrt (disc_of (sphere_of32 Binary32.sphere_1e8)
                       (ray_of32 Binary32.x_axis_ray)) /\
    dist2 (point_at (ray_of32 Binary32.x_axis_ray) (Binary32.B2R t))
          (center (sphere_of32 Binary32.sphere_1e8))
    <> r (sphere_of32 Binary32.sphere_1e8)
       * r (sphere_of32 Binary32.sphere_1e8) /\
    (exists t' : R,
        dist2 (point_at (ray_of32 Binary32.x_axis_ray) t')
              (center (sphere_of32 Binary32.sphere_1e8))
        = r (sphere_of32 Binary32.sphere_1e8)
          * r (sphere_of32 Binary32.sphere_1e8) /\
        t' < Binary32.B2R t).
Proof.
  rewrite sphere_1e8_of32, x_axis_ray_of32.
  assert (Hdisc : disc_of (Sphere_new (mkVector3 100000000 0 0) 1) x_axis_ray
                  = 1)
    by (unfold disc_of, sd_of, ss_of, dot; simpl; ring).
  assert (Hsd : sd_of (Sphere_new (mkVector3 100000000 0 0) 1) x_axis_ray
                = 100000000)
    by (unfold sd_of, dot; simpl; ring).
  split; [reflexivity |]. split; [simpl; lra |].
  split; [apply length_one_dot; unfold dot; simpl; ring |].
  split; [rewrite Hdisc; lra |].
  eexists; eexists. split; [apply SphereIntersector_sphere_1e8 |].
  rewrite Hdisc, Hsd, sqrt_1.
  assert (Ht : Binary32.B2R (SpecFloat.S754_finite false 12500000 3)
               = 100000000) by (b2r; lra).
  rewrite Ht. split; [lra |]. split.
  - unfold dist2, point_at, dot; simpl. lra.
  - exists 99999999. split; [| lra].
    unfold dist2, point_at, dot; simpl. lra.
Qed.

(** C1, as amended: whenever the discriminant the code computes in
    binary32 is not below zero, [SphereIntersector] returns a populated
    intersection whose primitive is the queried sphere and whose distance
    is [sd - sqrt disc] as computed in binary32.  Without rounding, for
    [r >= 0], [r2 = r*r], a unit direction and [disc >= 0], the value
    [sd - sqrt disc] puts [origin + t*d] on the sphere surface and is the
    least real root; the rounded distance the code returns need not be
    either. *)
Theorem SphereIntersector_first_hit :
  (forall (sphere : Binary32.Sphere) (ray : Binary32.Ray),
      Binary32.flt (Binary32.disc_of sphere ray) Binary32.zero = false ->
      exists normal : Binary32.Vector3,
        Binary32.SphereIntersector sphere ray
        = Binary32.Hit (Binary32.fsub (Binary32.sd_of sphere ray)
                                      (Binary32.fsqrt
                                         (Binary32.disc_of sphere ray)))
                       sphere normal) /\
  (forall (sphere : Sphere) (ray : Ray),
      sphere_ok sphere ->
      0 <= r sphere ->
      length (d ray) = 1 ->
      0 <= sd_of sphere ray * sd_of sphere ray - ss_of sphere ray
           + r sphere * r sphere ->
      dist2 (point_at ray
               (sd_of sphere ray
                - sqrt (sd_of sphere ray * sd_of sphere ray
                        - ss_of sphere ray + r sphere * r sphere)))
            (center sphere) = r sphere * r sphere /\
      (forall t' : R,
          dist2 (point_at ray t') (center sphere) = r sphere * r sphere ->
          sd_of sphere ray
          - sqrt (sd_of sphere ray * sd_of sphere ray - ss_of sphere ray
                  + r sphere * r sphere) <= t')).
Proof.
  split.
  - intros sphere ray H. eexists.
    rewrite (Binary32_SphereIntersector_hit sphere ray H). reflexivity.
  - intros sphere ray Hok Hr Hd Hdisc. apply length_one_dot in Hd.
    rewrite <- Hok in *. fold (disc_of sphere ray) in *. split.
    + rewrite Hok. now apply first_root_on_sphere.
    + intros t' Ht'. rewrite Hok in Ht'. now apply first_root_least.
Qed.

Lemma SphereIntersector_first_hit_witness :
  (exists normal : Binary32.Vector3,
      Binary32.SphereIntersector Binary32.sphere_beside Binary32.x_axis_ray
      = Binary32.Hit
          (Binary32.fsub
             (Binary32.sd_of Binary32.sphere_beside Binary32.x_axis_ray)
             (Binary32.fsqrt
                (Binary32.disc_of Binary32.sphere_beside Binary32.x_axis_ray)))
          Binary32.sphere_beside normal) /\
  dist2 (point_at x_axis_ray
           (sd_of sphere_ahead x_axis_ray
            - sqrt (sd_of sphere_ahead x_axis_ray * sd_of sphere_ahead x_axis_ray
                    - ss_of sphere_ahead x_axis_ray
                    + r sphere_ahead * r sphere_ahead)))
        (center sphere_ahead) = r sphere_ahead * r sphere_ahead.
Proof.
  split.
  - apply (proj1 SphereIntersector_first_hit
             Binary32.sphere_beside Binary32.x_axis_ray).
    vm_compute. reflexivity.
  - apply (proj2 SphereIntersector_first_hit sphere_ahead x_axis_ray).
    + reflexivity.
    + simpl; lra.
    + apply length_one_dot. unfold dot; simpl; ring.
    + unfold sd_of, ss_of, dot; simpl; lra.
Defined.

(** ** Hits from outside, exactly and in binary32 *)

(** C3, as stated, fails for the code.  For the unit sphere centred at
    [(1, 2^-13, 0)] and the ray from the origin along +x every hypothesis
    holds (the origin is strictly outside, [sd = 1], [disc >= 0]) and the
    code reports a hit at distance [0], which is not strictly positive.
    For the unit sphere centred at [(1e8, 0, 0)] every hypothesis holds
    too, and the normal the code returns is NaN in every component. *)
Lemma SphereIntersector_outside_hit_counterexample :
  (sphere_ok (sphere_of32 Binary32.sphere_touching) /\
   0 < r (sphere_of32 Binary32.sphere_touching) /\
   length (d (ray_of32 Binary32.x_axis_ray)) = 1 /\
   r (sphere_of32 Binary32.sphere_touching)
   * r (sphere_of32 Binary32.sphere_touching)
   < ss_of (sphere_of32 Binary32.sphere_touching)
           (ray_of32 Binary32.x_axis_ray) /\
   0 <= sd_of (sphere_of32 Binary32.sphere_touching)
              (ray_of32 Binary32.x_axis_ray) /\
   0 <= disc_of (sphere_of32 Binary32.sphere_touching)
                (ray_of32 Binary32.x_axis_ray) /\
   exists (t : Binary32.float) (normal : Binary32.Vector3),
     Binary32.SphereIntersector Binary32.sphere_touching Binary32.x_axis_ray
     = Binary32.Hit t Binary32.sphere_touching normal /\
     ~ 0 < Binary32.B2R t) /\
  (sphere_ok (sphere_of32 Binary32.sphere_1e8) /\
   0 < r (sphere_of32 Binary32.sphere_1e8) /\
   length (d (ray_of32 Binary32.x_axis_ray)) = 1 /\
   r (sphere_of32 Binary32.sphere_1e8) * r (sphere_of32 Binary32.sphere_1e8)
   < ss_of (sphere_of32 Binary32.sphere_1e8) (ray_of32 Binary32.x_axis_ray) /\
   0 <= sd_of (sphere_of32 Binary32.sphere_1e8)
              (ray_of32 Binary32.x_axis_ray) /\
   0 <= disc_of (sphere_of32 Binary32.sphere_1e8)
                (ray_of32 Binary32.x_axis_ray) /\
   exists (t : Binary32.float) (normal : Binary32.Vector3),
     Binary32.SphereIntersector Binary32.sphere_1e8 Binary32.x_axis_ray
     = Binary32.Hit t Binary32.sphere_1e8 normal /\
     Binary32.is_nan (Binary32.x normal) = true /\
     Binary32.is_nan (Binary32.y normal) = true /\
     Binary32.is_nan (Binary32.z normal) = true).
Proof.
  rewrite sphere_touching_of32, sphere_1e8_of32, x_axis_ray_of32. split.
  - split; [reflexivity |]. split; [simpl; lra |].
    split; [apply length_one_dot; unfold dot; simpl; ring |].
    split; [unfold ss_of, dot; simpl; lra |].
    split; [unfold sd_of, dot; simpl; lra |].
    split; [unfold disc_of, sd_of, ss_of, dot; simpl; lra |].
    eexists; eexists. split; [apply SphereIntersector_sphere_touching |].
    cbv [Binary32.B2R Binary32.zero]. lra.
  - split; [reflexivity |]. split; [simpl; lra |].
    split; [apply length_one_dot; unfold dot; simpl; ring |].
    split; [unfold ss_of, dot; simpl; lra |].
    split; [unfold sd_of, dot; simpl; lra |].
    split; [unfold disc_of, sd_of, ss_of, dot; simpl; lra |].
    eexists; eexists. split; [apply SphereIntersector_sphere_1e8 |].
    repeat split.
Qed.

(** C3, as amended: every populated result of [SphereIntersector] is for
    the queried sphere and carries the distance [sd - sqrt disc] and the
    normal [normalize (hit_pos - center)] as computed in binary32.  Without
    rounding, for [r > 0], [r2 = r*r], a unit direction, an origin strictly
    outside the sphere ([ss > r^2]), [sd >= 0] and [disc >= 0], the
    distance [sd - sqrt disc] is strictly positive and the normal has unit
    length; with rounding the distance can be 0 and the normal NaN. *)
Theorem SphereIntersector_outside_hit :
  (forall (sphere : Binary32.Sphere) (ray : Binary32.Ray)
          (t : Binary32.float) (object : Binary32.Sphere)
          (normal : Binary32.Vector3),
      Binary32.SphereIntersector sphere ray = Binary32.Hit t object normal ->
      object = sphere /\
      t = Binary32.t_of sphere ray /\
      normal = Binary32.normalize
                 (Binary32.vsub (Binary32.hit_pos_of sphere ray)
                                (Binary32.center sphere))) /\
  (forall (sphere : Sphere) (ray : Ray),
      sphere_ok sphere ->
      0 < r sphere ->
      length (d ray) = 1 ->
      r sphere * r sphere < ss_of sphere ray ->
      0 <= sd_of sphere ray ->
      0 <= disc_of sphere ray ->
      0 < sd_of sphere ray - sqrt (disc_of sphere ray) /\
      length (normalize
                (point_at ray (sd_of sphere ray - sqrt (disc_of sphere ray))
                 - center sphere)%vec) = 1).
Proof.
  split.
  - intros sphere ray t object normal H.
    destruct (Binary32.flt (Binary32.disc_of sphere ray) Binary32.zero)
      eqn:Hlt.
    + rewrite (Binary32_SphereIntersector_miss _ _ Hlt) in H. discriminate.
    + rewrite (Binary32_SphereIntersector_hit _ _ Hlt) in H.
      injection H as <- <- <-. auto.
  - intros sphere ray Hok Hr Hd Hout Hsd Hdisc. apply length_one_dot in Hd.
    split; [now apply first_root_positive |].
    apply normalize_unit.
    fold (dist2 (point_at ray (sd_of sphere ray - sqrt (disc_of sphere ray)))
                (center sphere)).
    rewrite first_root_on_sphere by assumption. nra.
Qed.

Lemma SphereIntersector_outside_hit_witness :
  (Binary32.sphere_touching = Binary32.sphere_touching /\
   Binary32.zero = Binary32.t_of Binary32.sphere_touching Binary32.x_axis_ray /\
   Binary32.mkVector3 (SpecFloat.S754_finite true 8388608 (-23))
                      (SpecFloat.S754_finite true 8388608 (-36))
                      Binary32.zero
   = Binary32.normalize
       (Binary32.vsub
          (Binary32.hit_pos_of Binary32.sphere_touching Binary32.x_axis_ray)
          (Binary32.center Binary32.sphere_touching))) /\
  (0 < sd_of sphere_ahead x_axis_ray - sqrt (disc_of sphere_ahead x_axis_ray) /\
   length (normalize
             (point_at x_axis_ray
                (sd_of sphere_ahead x_axis_ray
                 - sqrt (disc_of sphere_ahead x_axis_ray))
              - center sphere_ahead)%vec) = 1).
Proof.
  split.
  - apply (proj1 SphereIntersector_outside_hit
             Binary32.sphere_touching Binary32.x_axis_ray).
    apply SphereIntersector_sphere_touching.
  - apply (proj2 SphereIntersector_outside_hit sphere_ahead x_axis_ray).
    + reflexivity.
    + simpl; lra.
    + apply length_one_dot. unfold dot; simpl; ring.
    + unfold ss_of, dot; simpl; lra.
    + unfold sd_of, dot; simpl; lra.
    + unfold disc_of, sd_of, ss_of, dot; simpl; lra.
Defined.

(** ** The bounding box, exactly and in binary32 *)

(** C4, as stated, fails for the code: for the unit sphere centred at
    [(1e8, 0, 0)] the box computed in binary32 spans only [1e8] in x, and
    the point [(99999999, 0, 0)] of the sphere is outside it. *)
Lemma SphereBoxConverter_minimal_box_counterexample :
  0 <= r (sphere_of32 Binary32.sphere_1e8) /\
  in_sphere (sphere_of32 Binary32.sphere_1e8) (mkVector3 99999999 0 0) /\
  x (bmin (box_of32 (Binary32.SphereBoxConverter Binary32.sphere_1e8)))
  = 100000000 /\
  x (bmax (box_of32 (Binary32.SphereBoxConverter Binary32.sphere_1e8)))
  = 100000000 /\
  ~ box_contains (box_of32 (Binary32.SphereBoxConverter Binary32.sphere_1e8))
                 (mkVector3 99999999 0 0).
Proof.
  rewrite sphere_1e8_of32, SphereBoxConverter_sphere_1e8.
  assert (Hmin : x (bmin (box_of32
                   (Binary32.mkBBox
                      (Binary32.mkVector3
                         (SpecFloat.S754_finite false 12500000 3)
                         (SpecFloat.S754_finite true 8388608 (-23))
                         (SpecFloat.S754_finite true 8388608 (-23)))
                      (Binary32.mkVector3
                         (SpecFloat.S754_finite false 12500000 3)
                         (SpecFloat.S754_finite false 8388608 (-23))
                         (SpecFloat.S754_finite false 8388608 (-23))))))
                 = 100000000)
    by (cbn [box_of32 vector_of32 bmin x Binary32.bmin Binary32.x]; b2r; lra).
  split; [simpl; lra |]. split; [| split; [exact Hmin | split]].
  - unfold in_sphere. apply Req_le, length_of_square; [simpl; lra |].
    unfold dot; simpl. ring.
  - cbn [box_of32 vector_of32 bmax x Binary32.bmax Binary32.x]. b2r. lra.
  - intros [[Hx _] _]. rewrite Hmin in Hx. simpl in Hx. lra.
Qed.

(** C4, as amended: the box returned by [SphereBoxConverter] has the
    corners [center - (r,r,r)] and [center + (r,r,r)], each component
    rounded to binary32.  Without rounding, for [r >= 0], this is the
    minimal axis-aligned bounding box of the sphere: it contains every
    point [p] with [|p - center| <= r], and every axis-aligned box that
    contains all such points contains it; with rounding the box need not
    contain the sphere. *)
Theorem SphereBoxConverter_minimal_box :
  (forall sphere : Binary32.Sphere,
      Binary32.bmin (Binary32.SphereBoxConverter sphere)
      = Binary32.mkVector3
          (Binary32.fsub (Binary32.x (Binary32.center sphere))
                         (Binary32.r sphere))
          (Binary32.fsub (Binary32.y (Binary32.center sphere))
                         (Binary32.r sphere))
          (Binary32.fsub (Binary32.z (Binary32.center sphere))
                         (Binary32.r sphere)) /\
      Binary32.bmax (Binary32.SphereBoxConverter sphere)
      = Binary32.mkVector3
          (Binary32.fadd (Binary32.x (Binary32.center sphere))
                         (Binary32.r sphere))
          (Binary32.fadd (Binary32.y (Binary32.center sphere))
                         (Binary32.r sphere))
          (Binary32.fadd (Binary32.z (Binary32.center sphere))
                         (Binary32.r sphere))) /\
  (forall sphere : Sphere,
      0 <= r sphere ->
      SphereBoxConverter sphere
      = mkBBox (center sphere - mkVector3 (r sphere) (r sphere) (r sphere))%vec
               (center sphere + mkVector3 (r sphere) (r sphere) (r sphere))%vec /\
      box_encloses (SphereBoxConverter sphere) sphere /\
      (forall box : BBox,
          box_encloses box sphere ->
          vle (bmin box) (bmin (SphereBoxConverter sphere)) /\
          vle (bmax (SphereBoxConverter sphere)) (bmax box))).
Proof.
  split; [intros sphere; split; reflexivity |].
  intros sphere Hr. split; [reflexivity | split].
  - intros p Hp. apply length_le_components in Hp. simpl in Hp.
    unfold box_contains, vle; simpl. lra.
  - intros box Hbox.
    assert (Hpole : forall e, dot e e = 1 ->
              box_contains box (center sphere + e * r sphere)%vec)
      by (intros e He; apply Hbox, pole_in_sphere; assumption).
    pose proof (Hpole (mkVector3 1 0 0)) as Hx1.
    pose proof (Hpole (mkVector3 (-1) 0 0)) as Hx0.
    pose proof (Hpole (mkVector3 0 1 0)) as Hy1.
    pose proof (Hpole (mkVector3 0 (-1) 0)) as Hy0.
    pose proof (Hpole (mkVector3 0 0 1)) as Hz1.
    pose proof (Hpole (mkVector3 0 0 (-1))) as Hz0.
    unfold box_contains, vle, dot in *; simpl in *.
    assert (E1 : 1 * 1 + 0 * 0 + 0 * 0 = 1) by ring.
    assert (E2 : -1 * -1 + 0 * 0 + 0 * 0 = 1) by ring.
    assert (E3 : 0 * 0 + 1 * 1 + 0 * 0 = 1) by ring.
    assert (E4 : 0 * 0 + -1 * -1 + 0 * 0 = 1) by ring.
    assert (E5 : 0 * 0 + 0 * 0 + 1 * 1 = 1) by ring.
    assert (E6 : 0 * 0 + 0 * 0 + -1 * -1 = 1) by ring.
    specialize (Hx1 E1). specialize (Hx0 E2). specialize (Hy1 E3).
    specialize (Hy0 E4). specialize (Hz1 E5). specialize (Hz0 E6).
    lra.
Qed.

Lemma SphereBoxConverter_minimal_box_witness :
  0 <= r sphere_far /\
  box_encloses (SphereBoxConverter sphere_far) sphere_far /\
  (forall box : BBox,
      box_encloses box sphere_far ->
      vle (bmin box) (bmin (SphereBoxConverter sphere_far)) /\
      vle (bmax (SphereBoxConverter sphere_far)) (bmax box)).
Proof.
  assert (H : 0 <= r sphere_far) by (simpl; lra).
  split; [exact H |].
  exact (proj2 (proj2 SphereBoxConverter_minimal_box sphere_far H)).
Defined.

(** ** Determinism and the reference in the result *)

Lemma read_sphere_eq {A : Type} (field : Sphere -> A) (p : nat) (st : Store)
      (sphere : Sphere) :
  nth_error (spheres st) p = Some sphere ->
  read_sphere field p st = Some (field sphere, st).
Proof.
  intros H. unfold read_sphere, bind, load_sphere, ret. now rewrite H.
Qed.

Lemma read_ray_eq {A : Type} (field : Ray -> A) (p : nat) (st : Store)
      (ray : Ray) :
  nth_error (rays st) p = Some ray ->
  read_ray field p st = Some (field ray, st).
Proof.
  intros H. unfold read_ray, bind, load_ray, ret. now rewrite H.
Qed.

Lemma SphereBoxConverter_ref_eq (st : Store) (ps : nat) (sphere : Sphere) :
  nth_error (spheres st) ps = Some sphere ->
  SphereBoxConverter_ref ps st = Some (SphereBoxConverter sphere, st).
Proof.
  intros Hs. unfold SphereBoxConverter_ref, bind.
  rewrite !(read_sphere_eq _ _ _ _ Hs). reflexivity.
Qed.

Lemma SphereIntersector_ref_eq (st : Store) (ps pr : nat)
      (sphere : Sphere) (ray : Ray) :
  nth_error (spheres st) ps = Some sphere ->
  nth_error (rays st) pr = Some ray ->
  SphereIntersector_ref ps pr st
  = Some (with_object ps (SphereIntersector sphere ray), st).
Proof.
  intros Hs Hr. unfold SphereIntersector_ref, SphereIntersector, bind.
  rewrite (read_sphere_eq _ _ _ _ Hs), !(read_ray_eq _ _ _ _ Hr).
  rewrite (read_sphere_eq _ _ _ _ Hs). cbv zeta.
  destruct (Rlt_dec _ 0); [reflexivity |].
  rewrite !(read_ray_eq _ _ _ _ Hr), (read_sphere_eq _ _ _ _ Hs). reflexivity.
Qed.

(** C6, as stated, fails for the code: two invocations on equal spheres
    held at two addresses, with the same ray, return intersections that
    differ, each holding the address of its own argument. *)
Lemma capabilities_deterministic_counterexample :
  nth_error (spheres twin_store) 0 = Some sphere_ahead /\
  nth_error (spheres twin_store) 1 = Some sphere_ahead /\
  nth_error (rays twin_store) 0 = Some x_axis_ray /\
  option_map fst (SphereIntersector_ref 0 0 twin_store)
  <> option_map fst (SphereIntersector_ref 1 0 twin_store).
Proof.
  repeat split.
  rewrite (SphereIntersector_ref_eq twin_store 0 0 sphere_ahead x_axis_ray)
    by reflexivity.
  rewrite (SphereIntersector_ref_eq twin_store 1 0 sphere_ahead x_axis_ray)
    by reflexivity.
  rewrite SphereIntersector_hit
    by (unfold disc_of, sd_of, ss_of, dot; simpl; lra).
  simpl. intros H. injection H as H. discriminate H.
Qed.

(** C6, as amended: [SphereBoxConverter] and [SphereIntersector] depend
    only on the sphere (and the ray) passed to them: two invocations whose
    sphere arguments hold equal values (and whose ray arguments do) return
    equal boxes, and intersections that agree on hit or miss, on the
    distance and on the normal, whatever the rest of the program state; the
    primitive reference of a populated result is the address of the sphere
    argument, so the two intersections are equal when the same sphere
    object is passed. *)
Theorem capabilities_deterministic
        (st1 st2 : Store) (ps1 ps2 pr1 pr2 : nat) (sphere : Sphere) (ray : Ray) :
  nth_error (spheres st1) ps1 = Some sphere ->
  nth_error (spheres st2) ps2 = Some sphere ->
  nth_error (rays st1) pr1 = Some ray ->
  nth_error (rays st2) pr2 = Some ray ->
  (exists box : BBox,
      option_map fst (SphereBoxConverter_ref ps1 st1) = Some box /\
      option_map fst (SphereBoxConverter_ref ps2 st2) = Some box) /\
  (exists hit : Intersection,
      option_map fst (SphereIntersector_ref ps1 pr1 st1)
      = Some (with_object ps1 hit) /\
      option_map fst (SphereIntersector_ref ps2 pr2 st2)
      = Some (with_object ps2 hit)) /\
  (ps1 = ps2 ->
   option_map fst (SphereIntersector_ref ps1 pr1 st1)
   = option_map fst (SphereIntersector_ref ps2 pr2 st2)).
Proof.
  intros Hs1 Hs2 Hr1 Hr2.
  rewrite (SphereBoxConverter_ref_eq _ _ _ Hs1).
  rewrite (SphereBoxConverter_ref_eq _ _ _ Hs2).
  rewrite (SphereIntersector_ref_eq _ _ _ _ _ Hs1 Hr1).
  rewrite (SphereIntersector_ref_eq _ _ _ _ _ Hs2 Hr2).
  split; [exists (SphereBoxConverter sphere); split; reflexivity |].
  split; [exists (SphereIntersector sphere ray); split; reflexivity |].
  intros ->. reflexivity.
Qed.

Lemma capabilities_deterministic_witness :
  exists hit : Intersection,
    option_map fst (SphereIntersector_ref 0 0
                      (mkStore [sphere_ahead] [x_axis_ray] 0))
    = Some (with_object 0 hit) /\
    option_map fst (SphereIntersector_ref 1 2
                      (mkStore [sphere_far; sphere_ahead]
                               [stretched_ray; stretched_ray; x_axis_ray] 7))
    = Some (with_object 1 hit).
Proof.
  apply (capabilities_deterministic
           (mkStore [sphere_ahead] [x_axis_ray] 0)
           (mkStore [sphere_far; sphere_ahead]
                    [stretched_ray; stretched_ray; x_axis_ray] 7)
           0 1 0 2 sphere_ahead x_axis_ray); reflexivity.
Defined.

(** ** Rounding at the edge of a small sphere *)

(** X1: rounding can turn a miss into a hit: there are a binary32 sphere
    with [r2 = r*r] exactly and a ray with an exactly unit direction whose
    line stays away from the sphere (no real parameter puts a point of the
    line on the surface), for which [SphereIntersector] returns a populated
    intersection. *)
Theorem SphereIntersector_rounding_false_hit :
  exists (sphere : Binary32.Sphere) (ray : Binary32.Ray)
         (t : Binary32.float) (normal : Binary32.Vector3),
    sphere_ok (sphere_of32 sphere) /\
    length (d (ray_of32 ray)) = 1 /\
    (forall t' : R,
        dist2 (point_at (ray_of32 ray) t') (center (sphere_of32 sphere))
        <> r (sphere_of32 sphere) * r (sphere_of32 sphere)) /\
    Binary32.SphereIntersector sphere ray = Binary32.Hit t sphere normal.
Proof.
  exists Binary32.sphere_beside, Binary32.x_axis_ray. eexists; eexists.
  rewrite sphere_beside_of32, x_axis_ray_of32.
  split; [reflexivity |].
  split; [apply length_one_dot; unfold dot; simpl; ring |].
  split; [| apply SphereIntersector_sphere_beside].
  intros t' H. unfold dist2, point_at, dot in H; simpl in H.
  pose proof (Rle_0_sqr (t' - 3)) as Hsq. unfold Rsqr in Hsq. nra.
Qed.

(** X5: rounding can put a reported hit outside the sphere's box: there
    are a binary32 sphere and a ray for which [SphereIntersector] reports
    a hit whose point [origin + t*d], as computed, is not inside the box
    [SphereBoxConverter] returns for that sphere. *)
Theorem hit_point_outside_box :
  exists (sphere : Binary32.Sphere) (ray : Binary32.Ray)
         (t : Binary32.float) (normal : Binary32.Vector3),
    Binary32.SphereIntersector sphere ray = Binary32.Hit t sphere normal /\
    Binary32.hit_pos_of sphere ray
    = Binary32.vadd (Binary32.o ray) (Binary32.vscale (Binary32.d ray) t) /\
    ~ box_contains (box_of32 (Binary32.SphereBoxConverter sphere))
                   (vector_of32 (Binary32.hit_pos_of sphere ray)).
Proof.
  exists Binary32.sphere_beside, Binary32.x_axis_ray. eexists; eexists.
  split; [apply SphereIntersector_sphere_beside |].
  split; [vm_compute; reflexivity |].
  rewrite hit_pos_sphere_beside, SphereBoxConverter_sphere_beside.
  intros [[_ [Hy _]] _]. revert Hy.
  cbn [box_of32 vector_of32 bmin y Binary32.bmin Binary32.y]. b2r. lra.
Qed.

(** ** One random number *)

(** X6: [rand01] makes exactly one call of [rand()], leaves the spheres
    and the rays alone, and returns a number in [0, 1]; it returns 0 when
    [rand()] returns 0. *)
Theorem rand01_unit_interval (RAND_MAX : Z) (rand_seq : nat -> Z) (st : Store) :
  (32767 <= RAND_MAX)%Z ->
  (0 <= rand_seq (rand_calls st) <= RAND_MAX)%Z ->
  exists (v : R) (st' : Store),
    rand01 RAND_MAX rand_seq st = Some (v, st') /\
    0 <= v <= 1 /\
    (rand_seq (rand_calls st) = 0%Z -> v = 0) /\
    rand_calls st' = S (rand_calls st) /\
    spheres st' = spheres st /\ rays st' = rays st.
Proof.
  intros Hmax [Hlo Hhi]. eexists; eexists. split; [apply rand01_eq |].
  assert (HM : 0 < IZR RAND_MAX) by (apply IZR_lt; lia).
  assert (Hinv : 0 < / IZR RAND_MAX) by now apply Rinv_0_lt_compat.
  apply IZR_le in Hlo, Hhi. simpl. repeat split.
  - unfold Rdiv. rewrite Rmult_1_l. apply Rmult_le_pos; lra.
  - unfold Rdiv. rewrite Rmult_1_l.
    rewrite <- (Rinv_r (IZR RAND_MAX)) by lra.
    apply Rmult_le_compat_r; lra.
  - intros ->. ring.
Qed.

Lemma rand01_unit_interval_witness :
  exists (v : R) (st' : Store),
    rand01 32767 counting_rand (mkStore [] [] 5) = Some (v, st') /\
    0 <= v <= 1.
Proof.
  destruct (rand01_unit_interval 32767 counting_rand (mkStore [] [] 5))
    as (v & st' & Hrun & Hrange & _).
  - lia.
  - unfold counting_rand.
    pose proof (Z.mod_pos_bound (Z.of_nat (rand_calls (mkStore [] [] 5))) 32768).
    lia.
  - exists v, st'. split; assumption.
Defined.
